(** * Kubernetes inventory plugin: a shallow embedding and its properties

    Source: [lib/ansible/plugins/inventory/kubernetes.py], class
    [InventoryModule].  The plugin is Python 2 code (it iterates labels with
    [iteritems] and reads [e.message]); exceptions are modelled by an error
    monad over the plugin object's mutable attributes, and every call the
    plugin makes on an external collaborator (the kubernetes client library,
    the inventory object, the display) is recorded, in order, in a trace. *)

From Stdlib Require Import String Ascii List ZArith Bool Lia DecimalString.
Import ListNotations.
Open Scope string_scope.

(** ** Python values and strings *)

(** The scalar values that reach [set_variable]. *)
Inductive pyval : Type :=
| PyNone
| PyStr (s : string)
| PyInt (z : Z).

Definition decimal (z : Z) : string := NilZero.string_of_int (Z.to_int z).

(** [str(v)], as [str.format] renders a positional argument. *)
Definition pystr (v : pyval) : string :=
  match v with
  | PyNone => "None"
  | PyStr s => s
  | PyInt z => decimal z
  end.

Definition opt_str (o : option string) : pyval :=
  match o with Some s => PyStr s | None => PyNone end.

Definition opt_int (o : option Z) : pyval :=
  match o with Some z => PyInt z | None => PyNone end.

(** [sub in s] on strings: [sub] occurs in [s] as a contiguous substring. *)
Fixpoint contains (sub s : string) : bool :=
  if prefix sub s then true
  else match s with
       | EmptyString => false
       | String _ s' => contains sub s'
       end.

(** Truthiness of an optional string and of an optional boolean, as tested by
    [if context.get(key):]. *)
Definition truthy_str (o : option string) : bool :=
  match o with
  | Some EmptyString => false
  | Some _ => true
  | None => false
  end.

Definition truthy_bool (o : option bool) : bool :=
  match o with Some b => b | None => false end.

(** ** Exceptions *)

Inductive exn_kind : Type :=
| ConfigException
| ApiException
| TypeError
| AttributeError
| IndexError
| NameError
| OtherException
| AnsibleParserError.

Record exn : Type := mkExn { kind_of : exn_kind; message : string }.

Definition exn_kind_eqb (a b : exn_kind) : bool :=
  match a, b with
  | ConfigException, ConfigException | ApiException, ApiException
  | TypeError, TypeError | AttributeError, AttributeError
  | IndexError, IndexError | NameError, NameError
  | OtherException, OtherException
  | AnsibleParserError, AnsibleParserError => true
  | _, _ => false
  end.

(** ** Configuration data (the object the YAML loader returns) *)

(** One entry of [contexts]. A field is [None] when the key is absent, which
    is what [context.get] then returns (or replaces by its default). *)
Record ClusterContext : Type := mkContext {
  name : option string;
  server : option string;
  port : option Z;
  token : option string;
  username : option string;
  local_kube_config : option bool;
  kubernetes_config_file : option string;
  namespaces : option (list string)
}.

Record ConfigData : Type := mkConfig {
  plugin_name : option string;
  contexts : option (list ClusterContext)
}.

(** The loader returns whatever the document holds; only a mapping has
    [get]. [YOther ty] is a document of Python type [ty] (an empty file is
    [NoneType]). *)
Inductive yaml_doc : Type :=
| YMapping (cfg : ConfigData)
| YOther (ty : string).

(** ** Cluster objects *)

(** Modelled from the spec: the classes of the kubernetes client library are
    not part of the repository; pods, containers and endpoints carry the
    fields of the data model (section 3), all of them present, and only
    [target_ref] is optional. [labels] lists the items in the order
    [iteritems] yields them. *)
Record ContainerSpec : Type := mkContainer { container_name : string }.

Record Pod : Type := mkPod {
  pod_name : string;
  labels : list (string * string);
  containers : list ContainerSpec
}.

Record ObjectReference : Type := mkRef { ref_kind : string; ref_name : string }.

Record EndpointAddress : Type := mkAddress {
  target_ref : option ObjectReference
}.

Record EndpointSubset : Type := mkSubset { addresses : list EndpointAddress }.

Record Endpoint : Type := mkEndpoint {
  service_name : string;
  subsets : list EndpointSubset
}.

(** ** The dictionary built by [_generate_kubernetes_config] *)

Module KubeConfig.
Record cluster : Type := mkCluster {
  insecure_skip_tls_verify : string;
  cluster_server : string;
  cluster_name : string
}.
Record context : Type := mkCtx {
  context_cluster : string;
  context_namespace : string;
  context_user : string;
  context_name : string
}.
Record user : Type := mkUser {
  user_name : string;
  user_token : pyval
}.
Record t : Type := mk {
  current_context : string;
  clusters : list cluster;
  contexts : list context;
  users : list user
}.
End KubeConfig.

(** Where the credentials of a connection come from: the three branches of
    [_connect]. *)
Inductive cred_source : Type :=
| LocalDefault
| ConfigFile (path : string)
| Inline (kubernetes_config : KubeConfig.t) (active_context : string).

(** ** External collaborators *)

(** The kubernetes client library and the YAML loader.  [kube_load src]
    stands for loading the credentials [src] and instantiating
    [CoreV1Api()]; listings are functions of the handle and the namespace. *)
Record Kubernetes : Type := mkKubernetes {
  client : Type;
  kube_load : cred_source -> exn + client;
  list_namespaced_pod : client -> string -> exn + list Pod;
  list_namespaced_endpoints : client -> string -> exn + list Endpoint;
  load_from_file : string -> exn + yaml_doc
}.

(** Every call on a collaborator, with what it returned where the plugin
    depends on it. *)
Inductive event : Type :=
| load_config (src : cred_source) (err : option exn)
| list_pod (namespace : string) (r : exn + list Pod)
| list_endpoints (namespace : string) (r : exn + list Endpoint)
| add_group (group : string)
| add_child (group child : string)
| add_host (host : string)
| set_variable (host varname : string) (value : pyval)
| display_error (msg : string).

(** ** The plugin object and its monad *)

Inductive result (A : Type) : Type :=
| Ok (a : A)
| Raise (e : exn).
Arguments Ok {A} a.
Arguments Raise {A} e.

Section Plugin.

Variable K : Kubernetes.

(** The attributes of [self] that the plugin writes, and the trace. An
    attribute that was never assigned is [None]. *)
Record self : Type := mkSelf {
  api : option (client K);
  plugin : option string;
  inventory_hostname : option string;
  trace : list event
}.

Definition fresh : self :=
  {| api := None; plugin := None; inventory_hostname := None; trace := [] |}.

Definition M (A : Type) : Type := self -> result A * self.

Definition ret {A} (a : A) : M A := fun s => (Ok a, s).

Definition bind {A B} (m : M A) (k : A -> M B) : M B :=
  fun s => match m s with
           | (Ok a, s') => k a s'
           | (Raise e, s') => (Raise e, s')
           end.

Definition raise {A} (e : exn) : M A := fun s => (Raise e, s).

(** [try: body except Exception as e: handler(e)] *)
Definition try_except {A} (body : M A) (handler : exn -> M A) : M A :=
  fun s => match body s with
           | (Ok a, s') => (Ok a, s')
           | (Raise e, s') => handler e s'
           end.

(** [try: body except <kind>: handler]; other exceptions propagate. *)
Definition try_except_kind (k : exn_kind) (body : M unit) (handler : M unit)
  : M unit :=
  fun s => match body s with
           | (Ok a, s') => (Ok a, s')
           | (Raise e, s') =>
               if exn_kind_eqb (kind_of e) k then handler s' else (Raise e, s')
           end.

(** The object after the calls [d] were made, in that order. *)
Definition log (d : list event) (s : self) : self :=
  {| api := api s; plugin := plugin s;
     inventory_hostname := inventory_hostname s;
     trace := trace s ++ d |}.

Definition emit (e : event) : M unit := fun s => (Ok tt, log [e] s).

Definition lift {A} (r : exn + A) : M A :=
  match r with inl e => raise e | inr a => ret a end.

Notation "x <- m ;; k" := (bind m (fun x => k))
  (at level 61, m at next level, right associativity).
Notation "m ;; k" := (bind m (fun _ => k))
  (at level 61, right associativity).

(** [for x in l: body(x)] *)
Fixpoint for_ {A} (l : list A) (body : A -> M unit) : M unit :=
  match l with
  | [] => ret tt
  | x :: l' => body x ;; for_ l' body
  end.

(** Iterating a value that may be [None]. *)
Definition iterate {A} (o : option (list A)) : M (list A) :=
  match o with
  | Some l => ret l
  | None => raise (mkExn TypeError "'NoneType' object is not iterable")
  end.

Definition no_attribute (ty attr : string) : exn :=
  mkExn AttributeError
        ("'" ++ ty ++ "' object has no attribute '" ++ attr ++ "'").

Definition getattr {A} (field : self -> option A) (attr : string) : M A :=
  fun s => match field s with
           | Some a => (Ok a, s)
           | None => (Raise (no_attribute "InventoryModule" attr), s)
           end.

(** The object after [self.api = c]. *)
Definition with_api (c : client K) (s : self) : self :=
  {| api := Some c; plugin := plugin s;
     inventory_hostname := inventory_hostname s;
     trace := trace s |}.

Definition set_api (c : client K) : M unit := fun s => (Ok tt, with_api c s).

Definition set_plugin (p : string) : M unit :=
  fun s => (Ok tt, {| api := api s; plugin := Some p;
                      inventory_hostname := inventory_hostname s;
                      trace := trace s |}).

Definition set_inventory_hostname (h : string) : M unit :=
  fun s => (Ok tt, {| api := api s; plugin := plugin s;
                      inventory_hostname := Some h;
                      trace := trace s |}).

(** Calls into the client library; each records the call and its outcome. *)
Definition call_kube_load (src : cred_source) : M (client K) :=
  match kube_load K src with
  | inr c => emit (load_config src None) ;; ret c
  | inl e => emit (load_config src (Some e)) ;; raise e
  end.

Definition call_list_namespaced_pod (c : client K) (namespace : string)
  : M (list Pod) :=
  let r := list_namespaced_pod K c namespace in
  emit (list_pod namespace r) ;; lift r.

Definition call_list_namespaced_endpoints (c : client K) (namespace : string)
  : M (list Endpoint) :=
  let r := list_namespaced_endpoints K c namespace in
  emit (list_endpoints namespace r) ;; lift r.

(** ** The methods of [InventoryModule] *)

(** [_fail] (lines 154-155). *)
Definition _fail (msg : string) : M unit := emit (display_error msg).

(** [_generate_kubernetes_config] (lines 157-197). [namespaces[0]] raises
    when [namespaces] is missing or empty. *)
Definition _generate_kubernetes_config (context : ClusterContext)
  : exn + (KubeConfig.t * string) :=
  let username := opt_str (username context) in
  let server := pystr (opt_str (server context)) ++ ":"
                ++ pystr (opt_int (port context)) in
  match namespaces context with
  | None =>
      inl (mkExn TypeError "'NoneType' object has no attribute '__getitem__'")
  | Some [] => inl (mkExn IndexError "list index out of range")
  | Some (namespace0 :: _) =>
      let current_context :=
        namespace0 ++ "/" ++ server ++ "/" ++ pystr username in
      let users_name := pystr username ++ "/" ++ server in
      inr ({| KubeConfig.current_context := current_context;
              KubeConfig.clusters :=
                [ {| KubeConfig.insecure_skip_tls_verify := "true";
                     KubeConfig.cluster_server := "https://" ++ server;
                     KubeConfig.cluster_name := server |} ];
              KubeConfig.contexts :=
                [ {| KubeConfig.context_cluster := server;
                     KubeConfig.context_namespace := namespace0;
                     KubeConfig.context_user := users_name;
                     KubeConfig.context_name := current_context |} ];
              KubeConfig.users :=
                [ {| KubeConfig.user_name := users_name;
                     KubeConfig.user_token := opt_str (token context) |} ]
           |}, current_context)
  end.

(** [_connect] (lines 199-218). The three [except] clauses have the same
    body, so one handler stands for them. *)
Definition _connect (context : ClusterContext) : M unit :=
  try_except
    (c <- (if truthy_bool (local_kube_config context) then
             call_kube_load LocalDefault
           else if truthy_str (kubernetes_config_file context) then
             match kubernetes_config_file context with
             | Some path => call_kube_load (ConfigFile path)
             | None => call_kube_load LocalDefault (* [config_file=None] *)
             end
           else
             generated <- lift (_generate_kubernetes_config context) ;;
             call_kube_load (Inline (fst generated) (snd generated))) ;;
     set_api c)
    (fun e => _fail (message e)).

(** The body of the innermost loop of [_kube_service_group]
    (lines 230-235). *)
Definition service_address (service_name : string) (a : EndpointAddress)
  : M unit :=
  try_except_kind NameError
    (match target_ref a with
     | Some r =>
         if contains "Pod" (ref_kind r)
         then emit (add_child service_name (ref_name r))
         else ret tt
     | None => ret tt
     end)
    (ret tt).

(** [_kube_service_group] (lines 221-241). *)
Definition _kube_service_group (namespace : string) : M unit :=
  try_except
    (c <- getattr api "api" ;;
     endpoints <- call_list_namespaced_endpoints c namespace ;;
     for_ endpoints (fun e =>
       let service_name := service_name e in
       emit (add_group service_name) ;;
       for_ (subsets e) (fun s =>
         for_ (addresses s) (service_address service_name))))
    (fun e => _fail (message e)).

(** [_groupadd] (lines 244-246). *)
Definition _groupadd (group_name child_name : string) : M unit :=
  emit (add_group group_name) ;;
  emit (add_child group_name child_name).

(** [self.inventory.set_variable(self.inventory_hostname, k, v)] *)
Definition set_host_variable (varname : string) (value : pyval) : M unit :=
  h <- getattr inventory_hostname "inventory_hostname" ;;
  emit (set_variable h varname value).

(** [_hostvars] (lines 248-270). *)
Definition _hostvars (namespace pod_name container_name : string)
           (context : ClusterContext) : M unit :=
  h <- getattr inventory_hostname "inventory_hostname" ;;
  emit (add_host h) ;;
  set_host_variable "ansible_host" (PyStr pod_name) ;;
  p <- getattr plugin "plugin" ;;
  set_host_variable "ansible_connection" (PyStr p) ;;
  set_host_variable "ansible_user" (opt_str (username context)) ;;
  set_host_variable "ansible_password" (opt_str (token context)) ;;
  set_host_variable "ansible_kubernetes_port"
    (match port context with Some z => PyInt z | None => PyInt 8443 end) ;;
  set_host_variable "ansible_kubernetes_cluster" (opt_str (server context)) ;;
  set_host_variable "ansible_kube_namespace" (PyStr namespace) ;;
  set_host_variable "ansible_kube_config_file"
    (opt_str (kubernetes_config_file context)) ;;
  set_host_variable "ansible_kube_container" (PyStr container_name).

(** The loop bodies of [_populate], innermost first. *)

(** Lines 304-307. *)
Definition populate_container (context : ClusterContext) (namespace : string)
           (pod : Pod) (container : ContainerSpec) : M unit :=
  set_inventory_hostname (container_name container ++ "_" ++ pod_name pod) ;;
  _hostvars namespace (pod_name pod) (container_name container) context ;;
  h <- getattr inventory_hostname "inventory_hostname" ;;
  _groupadd namespace h ;;
  h <- getattr inventory_hostname "inventory_hostname" ;;
  _groupadd (pod_name pod) h.

(** Lines 299-309. *)
Definition populate_pod (context : ClusterContext) (namespace : string)
           (pod : Pod) : M unit :=
  if negb (contains "-build" (pod_name pod)) then
    for_ (containers pod) (populate_container context namespace pod) ;;
    for_ (labels pod) (fun kv =>
      _groupadd (fst kv ++ "_" ++ snd kv) (pod_name pod))
  else ret tt.

(** Lines 297-310. *)
Definition populate_namespace (context : ClusterContext) (namespace : string)
  : M unit :=
  c <- getattr api "api" ;;
  pods <- call_list_namespaced_pod c namespace ;;
  for_ pods (populate_pod context namespace) ;;
  _kube_service_group namespace.

(** Lines 295-310. *)
Definition populate_context (context : ClusterContext) : M unit :=
  _connect context ;;
  nss <- iterate (namespaces context) ;;
  for_ nss (populate_namespace context).

(** [_populate] (lines 290-317). [config_data.get] needs a mapping. *)
Definition _populate (config_data : yaml_doc) : M unit :=
  try_except
    (cfg <- match config_data with
            | YMapping cfg => ret cfg
            | YOther ty => raise (no_attribute ty "get")
            end ;;
     set_plugin (match plugin_name cfg with
                 | Some p => p
                 | None => "kubernetes"
                 end) ;;
     ctxs <- iterate (contexts cfg) ;;
     for_ ctxs populate_context)
    (fun e => _fail (message e)).

(** [parse] (lines 279-288). The base class's [parse] only stores its
    arguments on the object. *)
Definition parse (path : string) : M unit :=
  config_data <- try_except (lift (load_from_file K path))
                   (fun e => raise (mkExn AnsibleParserError (message e))) ;;
  _populate config_data.

End Plugin.

Arguments fresh {K}.
Arguments trace {K} s.
Arguments api {K} s.
Arguments plugin {K} s.
Arguments inventory_hostname {K} s.
Arguments log {K} d s.
Arguments with_api {K} c s.

(** The calls made while [m] runs from [s]: what the run appends to the
    trace. *)
Definition events_of {K : Kubernetes} (m : M K unit) (s : self K)
  : list event :=
  skipn (length (trace s)) (trace (snd (m s))).

(** ** What the calls amount to *)

(** The inventory key of a container of a pod (line 304). *)
Definition host_key (container_name pod_name : string) : string :=
  container_name ++ "_" ++ pod_name.

Definition hosts_added (d : list event) : list string :=
  flat_map (fun e => match e with add_host h => [h] | _ => [] end) d.

Definition variables_set (d : list event) : list (string * string * pyval) :=
  flat_map (fun e => match e with
                     | set_variable h k v => [(h, k, v)]
                     | _ => []
                     end) d.

Definition groups_added (d : list event) : list string :=
  flat_map (fun e => match e with add_group g => [g] | _ => [] end) d.

Definition children_added (d : list event) : list (string * string) :=
  flat_map (fun e => match e with add_child g c => [(g, c)] | _ => [] end) d.

(** The pods returned by the listings that succeeded, in order. *)
Definition listed_pods (d : list event) : list Pod :=
  flat_map (fun e => match e with list_pod _ (inr pods) => pods | _ => [] end)
           d.

(** The calls on the inventory, without those on the client library and the
    display. *)
Definition is_inventory_call (e : event) : bool :=
  match e with
  | add_group _ | add_child _ _ | add_host _ | set_variable _ _ _ => true
  | _ => false
  end.

Definition is_group_call (e : event) : bool :=
  match e with
  | add_group _ | add_child _ _ => true
  | _ => false
  end.

Definition inventory_calls (d : list event) : list event :=
  filter is_inventory_call d.

(** The failure a call on the client library reported, if it did. *)
Definition failure_of (e : event) : option exn :=
  match e with
  | load_config _ (Some x) => Some x
  | list_pod _ (inl x) => Some x
  | list_endpoints _ (inl x) => Some x
  | _ => None
  end.

Definition is_build_pod (pod : Pod) : bool := contains "-build" (pod_name pod).

(** The hosts of a pod in the words of the description: none for a build
    pod, else one per entry of the container list, in its order, keyed
    [container_name + "_" + pod_name]. *)
Definition pod_host_keys (pod : Pod) : list string :=
  if is_build_pod pod then []
  else map (fun c => (container_name c ++ "_" ++ pod_name pod)%string)
           (containers pod).

(** The calls of one pass through each loop body, as lists: the plugin's
    output for a container, a label, a pod, an address and an endpoint. *)
Definition hostvars_events (plugin : string) (context : ClusterContext)
           (namespace pod_name container_name h : string) : list event :=
  [ add_host h;
    set_variable h "ansible_host" (PyStr pod_name);
    set_variable h "ansible_connection" (PyStr plugin);
    set_variable h "ansible_user" (opt_str (username context));
    set_variable h "ansible_password" (opt_str (token context));
    set_variable h "ansible_kubernetes_port"
      (match port context with Some z => PyInt z | None => PyInt 8443 end);
    set_variable h "ansible_kubernetes_cluster" (opt_str (server context));
    set_variable h "ansible_kube_namespace" (PyStr namespace);
    set_variable h "ansible_kube_config_file"
      (opt_str (kubernetes_config_file context));
    set_variable h "ansible_kube_container" (PyStr container_name) ].

Definition container_events (plugin : string) (context : ClusterContext)
           (namespace : string) (pod : Pod) (c : ContainerSpec) : list event :=
  let h := host_key (container_name c) (pod_name pod) in
  hostvars_events plugin context namespace (pod_name pod) (container_name c) h
  ++ [ add_group namespace; add_child namespace h;
       add_group (pod_name pod); add_child (pod_name pod) h ].

Definition label_events (pod : Pod) (kv : string * string) : list event :=
  [ add_group (fst kv ++ "_" ++ snd kv);
    add_child (fst kv ++ "_" ++ snd kv) (pod_name pod) ].

Definition pod_events (plugin : string) (context : ClusterContext)
           (namespace : string) (pod : Pod) : list event :=
  if is_build_pod pod then []
  else flat_map (container_events plugin context namespace pod)
                (containers pod)
       ++ flat_map (label_events pod) (labels pod).

Definition address_events (service_name : string) (a : EndpointAddress)
  : list event :=
  match target_ref a with
  | Some r => if contains "Pod" (ref_kind r)
              then [add_child service_name (ref_name r)] else []
  | None => []
  end.

Definition endpoint_events (e : Endpoint) : list event :=
  add_group (service_name e)
  :: flat_map (fun s => flat_map (address_events (service_name e))
                                 (addresses s))
              (subsets e).

(** The plugin name and the contexts a document configures. *)
Definition doc_plugin (doc : yaml_doc) : string :=
  match doc with
  | YMapping cfg => match plugin_name cfg with
                    | Some p => p
                    | None => "kubernetes"
                    end
  | YOther _ => "kubernetes"
  end.

Definition doc_contexts (doc : yaml_doc) : list ClusterContext :=
  match doc with
  | YMapping cfg => match contexts cfg with Some cs => cs | None => [] end
  | YOther _ => []
  end.

Definition context_namespaces (context : ClusterContext) : list string :=
  match namespaces context with Some nss => nss | None => [] end.

(** The shape of a run's calls: a run is a sequence of blocks, each the
    outcome of one call on the client library or one report. *)
Inductive block (pl : string) (cs : list ClusterContext)
  : list event -> Prop :=
| blk_report m : block pl cs [display_error m]
| blk_connected src : block pl cs [load_config src None]
| blk_connect_failed src e :
    block pl cs [load_config src (Some e); display_error (message e)]
| blk_pods context namespace pods :
    In context cs -> In namespace (context_namespaces context) ->
    block pl cs (list_pod namespace (inr pods)
                 :: flat_map (pod_events pl context namespace) pods)
| blk_endpoints namespace eps :
    block pl cs (list_endpoints namespace (inr eps)
                 :: flat_map endpoint_events eps)
| blk_endpoints_failed namespace e :
    block pl cs [list_endpoints namespace (inl e); display_error (message e)].

(** What can follow the blocks: nothing, or the pod listing that failed and
    its report, which end the run. *)
Definition closing (fin : list event) : Prop :=
  fin = [] \/
  exists namespace e, fin = [list_pod namespace (inl e);
                             display_error (message e)].

(** A property of an event in its context, for every event of a trace. *)
Definition locally {E : Type} (Q : list E -> E -> list E -> Prop)
           (d : list E) : Prop :=
  forall pre e post, d = (pre ++ e :: post)%list -> Q pre e post.

Definition extensible {E : Type} (Q : list E -> E -> list E -> Prop) : Prop :=
  forall a b pre e post, Q pre e post -> Q (a ++ pre)%list e (post ++ b)%list.

(** What [_connect] leaves once it has chosen the credentials [src]: the
    handle is stored when they load, the failure is reported when they do
    not. *)
Definition connect_outcome {K : Kubernetes} (src : cred_source) (s : self K)
  : result unit * self K :=
  match kube_load K src with
  | inr c => (Ok tt, with_api c (log [load_config src None] s))
  | inl e => (Ok tt, log [load_config src (Some e);
                          display_error (message e)] s)
  end.

(** The endpoint grouper in the words of its description: the names of the
    targets of an endpoint's addresses, over all subsets in order, that have
    a [target_ref] whose kind contains ["Pod"]; one group per endpoint with
    these as children. *)
Definition pod_targets (e : Endpoint) : list string :=
  flat_map (fun sub =>
    flat_map (fun a => match target_ref a with
                       | Some r => if contains "Pod" (ref_kind r)
                                   then [ref_name r] else []
                       | None => []
                       end)
             (addresses sub))
    (subsets e).

Definition service_group_calls (eps : list Endpoint) : list event :=
  flat_map (fun e => add_group (service_name e)
                     :: map (add_child (service_name e)) (pod_targets e))
           eps.

(** ** Concrete clusters and configurations *)

Module Scenario.

Definition web_1 : Pod :=
  mkPod "web-1" [("app", "web")] [mkContainer "app"].

Definition web_build_1 : Pod :=
  mkPod "web-build-1" [("openshift.io/build.name", "web-1")]
        [mkContainer "sti-build"].

Definition web_svc : Endpoint :=
  mkEndpoint "web-svc"
    [mkSubset [mkAddress (Some (mkRef "Pod" "web-1"));
               mkAddress None;
               mkAddress (Some (mkRef "Node" "node-1"))]].

Definition template_svc : Endpoint :=
  mkEndpoint "tpl-svc"
    [mkSubset [mkAddress (Some (mkRef "PodTemplate" "web-template"))]].

Definition local_ctx : ClusterContext :=
  mkContext (Some "first") None None None None (Some true) None
            (Some ["ns1"]).

Definition file_ctx : ClusterContext :=
  mkContext (Some "second") None None None None (Some false)
            (Some "/etc/kube.conf") (Some ["ns2"]).

Definition token_ctx : ClusterContext :=
  mkContext (Some "third") (Some "k8s.example.com") (Some 8443%Z)
            (Some "s3cr3t") (Some "admin") (Some false) None
            (Some ["ns3"; "ns4"]).

(** A cluster that every credential reaches and that answers every listing
    with [pods] and [eps]; the loader returns [doc]. *)
Definition cluster (pods : list Pod) (eps : list Endpoint) (doc : yaml_doc)
  : Kubernetes :=
  {| client := unit;
     kube_load := fun _ => inr tt;
     list_namespaced_pod := fun _ _ => inr pods;
     list_namespaced_endpoints := fun _ _ => inr eps;
     load_from_file := fun _ => inr doc |}.

(** The same cluster on a machine without a local kube config. *)
Definition cluster_without_local_config (pods : list Pod)
           (eps : list Endpoint) (doc : yaml_doc) : Kubernetes :=
  {| client := unit;
     kube_load := fun src =>
       match src with
       | LocalDefault =>
           inl (mkExn ConfigException
                      "Invalid kube-config file. No configuration found.")
       | _ => inr tt
       end;
     list_namespaced_pod := fun _ _ => inr pods;
     list_namespaced_endpoints := fun _ _ => inr eps;
     load_from_file := fun _ => inr doc |}.

Definition two_contexts : yaml_doc :=
  YMapping (mkConfig (Some "kubectl") (Some [local_ctx; file_ctx])).

Definition no_contexts_key : yaml_doc :=
  YMapping (mkConfig (Some "kubernetes") None).

(** An empty cluster that every credential reaches. *)
Definition reachable : Kubernetes := cluster [] [] two_contexts.

(** A cluster with a pod, a build pod and a service. *)
Definition serving : Kubernetes :=
  cluster [web_1; web_build_1] [web_svc] two_contexts.

(** A cluster whose only endpoint points at a pod template. *)
Definition templated : Kubernetes := cluster [] [template_svc] two_contexts.

Definition underscored_b : Pod := mkPod "b_c" [] [mkContainer "a"].

Definition underscored_c : Pod := mkPod "c" [] [mkContainer "a_b"].

(** A cluster whose two pods have different names and one key. *)
Definition underscored : Kubernetes :=
  cluster [underscored_b; underscored_c] [] two_contexts.

(** The cluster of [serving], configured without a [contexts] key. *)
Definition misconfigured : Kubernetes :=
  cluster [web_1; web_build_1] [web_svc] no_contexts_key.

(** The cluster of [serving] seen from a machine without a local kube
    config: the first of the two contexts cannot connect. *)
Definition first_fails : Kubernetes :=
  cluster_without_local_config [web_1; web_build_1] [web_svc] two_contexts.

(** The cluster of [serving] with the pods of ["ns1"] out of reach: the
    first of the two contexts connects and its pod listing fails. *)
Definition first_listing_fails : Kubernetes :=
  {| client := unit;
     kube_load := fun _ => inr tt;
     list_namespaced_pod := fun _ namespace =>
       if String.eqb namespace "ns1"
       then inl (mkExn ApiException "(403) Reason: Forbidden")
       else inr [web_1; web_build_1];
     list_namespaced_endpoints := fun _ _ => inr [web_svc];
     load_from_file := fun _ => inr two_contexts |}.

Definition second_context_only : yaml_doc :=
  YMapping (mkConfig (Some "kubectl") (Some [file_ctx])).

Definition one_context : yaml_doc :=
  YMapping (mkConfig None (Some [local_ctx])).

(** Scenarios A, B, C and E at once: one context with local credentials,
    namespace ["ns1"] with the pods ["web-1"] and ["web-build-1"] and the
    endpoint ["web-svc"]. *)
Definition run_a : list event :=
  events_of (_populate serving one_context) fresh.

End Scenario.

(** [s'] is [s] after the calls [d]; the handle and the plugin name are
    the same. *)
Definition steps {K : Kubernetes} (s s' : self K) (d : list event) : Prop :=
  api s' = api s /\ plugin s' = plugin s /\ trace s' = (trace s ++ d)%list.

(** What a computation that stopped on an exception had just recorded: the
    pod listing that raised it, or nothing. *)
Definition pending (r : result unit) (fin : list event) : Prop :=
  match r with
  | Ok _ => fin = []
  | Raise e => fin = [] \/ exists namespace, fin = [list_pod namespace (inl e)]
  end.

(** From an object whose plugin name is [pl], [m] makes the calls of a
    sequence of blocks, and stops where [pending] says. *)
Definition shaped {K : Kubernetes} (pl : string) (cs : list ClusterContext)
           (m : M K unit) : Prop :=
  forall s, plugin s = Some pl ->
    exists r s' bs fin,
      m s = (r, s') /\ plugin s' = Some pl /\ Forall (block pl cs) bs
      /\ pending r fin /\ trace s' = (trace s ++ concat bs ++ fin)%list.

(** The context of a host creation: the host is that of a container of a
    pod, not a build pod, of a listing made earlier for a namespace of a
    configured context, and the calls from its creation on begin with that
    container's. *)
Definition created_by (pl : string) (cs : list ClusterContext)
           (pre : list event) (e : event) (post : list event) : Prop :=
  forall h, e = add_host h ->
    exists context namespace pods pod c rest,
      In context cs /\ In namespace (context_namespaces context)
      /\ In (list_pod namespace (inr pods)) pre
      /\ In pod pods /\ is_build_pod pod = false /\ In c (containers pod)
      /\ h = host_key (container_name c) (pod_name pod)
      /\ add_host h :: post
         = (container_events pl context namespace pod c ++ rest)%list.

(** The context of a pod listing that succeeded: the calls for its pods
    follow at once. *)
Definition followed_by_pods (pl : string) (cs : list ClusterContext)
           (pre : list event) (e : event) (post : list event) : Prop :=
  forall namespace pods, e = list_pod namespace (inr pods) ->
    exists context rest,
      In context cs /\ In namespace (context_namespaces context)
      /\ post = (flat_map (pod_events pl context namespace) pods ++ rest)%list.

(** The context of a child addition: its group was created before. *)
Definition group_created_before (pre : list event) (e : event)
           (post : list event) : Prop :=
  forall g c, e = add_child g c -> In (add_group g) pre.

(** The context of a failed call: its report is the next call. *)
Definition reported_next (pre : list event) (e : event) (post : list event)
  : Prop :=
  forall x, failure_of e = Some x ->
    exists rest, post = display_error (message x) :: rest.

(** ** The rest of the module *)

(** [s.endswith(suffix)]: some tail of [s] is [suffix]. *)
Fixpoint endswith (s suffix : string) : bool :=
  if String.eqb s suffix then true
  else match s with
       | EmptyString => false
       | String _ s' => endswith s' suffix
       end.

(** [verify_file] (lines 272-277). The base class's [verify_file] is not
    part of the file; it is the argument [super_verify_file]. *)
Definition verify_file (super_verify_file : string -> bool) (path : string)
  : bool :=
  let valid := false in
  if super_verify_file path then
    if endswith path ".kube.yaml" || endswith path ".kube.yml"
    then true else valid
  else valid.

(** [l.index(x)]: the position of the first [x]; [None] stands for the
    [ValueError] raised when there is none. *)
Fixpoint list_index (x : string) (l : list string) : option nat :=
  match l with
  | [] => None
  | y :: l' => if String.eqb y x then Some 0
               else match list_index x l' with
                    | Some i => Some (S i)
                    | None => None
                    end
  end.

(** [del l[i]]; [None] stands for the [IndexError] out of range. *)
Fixpoint del_index (i : nat) (l : list string) : option (list string) :=
  match l, i with
  | [], _ => None
  | _ :: l', 0 => Some l'
  | y :: l', S j => match del_index j l' with
                    | Some r => Some (y :: r)
                    | None => None
                    end
  end.

(** One pass of the loop of lines 120-124:
    [try: del sys.path[sys.path.index(path)] except: pass]. *)
Definition remove_path (sys_path : list string) (path : string)
  : list string :=
  match list_index path sys_path with
  | Some i => match del_index i sys_path with
              | Some l => l
              | None => sys_path
              end
  | None => sys_path
  end.

(** The loop of lines 120-124 over the working directory, the empty path
    and the directory of the file. *)
Definition clean_sys_path (cwd here : string) (sys_path : list string)
  : list string :=
  fold_left remove_path [cwd; EmptyString; here] sys_path.

(** ** The calls of a run as lists *)

(** The credentials [_connect] chooses, or the exception raised while they
    are put together. *)
Definition credentials (context : ClusterContext) : exn + cred_source :=
  if truthy_bool (local_kube_config context) then inr LocalDefault
  else if truthy_str (kubernetes_config_file context) then
    match kubernetes_config_file context with
    | Some path => inr (ConfigFile path)
    | None => inr LocalDefault
    end
  else match _generate_kubernetes_config context with
       | inl e => inl e
       | inr generated => inr (Inline (fst generated) (snd generated))
       end.

Definition result_of (r : option exn) : result unit :=
  match r with None => Ok tt | Some e => Raise e end.

Section Calls.

Variable K : Kubernetes.

(** The calls of [_connect] from an object whose handle is [a], and the
    handle it leaves. *)
Definition connect_calls (a : option (client K)) (context : ClusterContext)
  : list event * option (client K) :=
  match credentials context with
  | inl e => ([display_error (message e)], a)
  | inr src =>
      match kube_load K src with
      | inr c => ([load_config src None], Some c)
      | inl e => ([load_config src (Some e); display_error (message e)], a)
      end
  end.

(** The calls of [_kube_service_group]. *)
Definition service_calls (a : option (client K)) (namespace : string)
  : list event :=
  match a with
  | None => [display_error (message (no_attribute "InventoryModule" "api"))]
  | Some c =>
      match list_namespaced_endpoints K c namespace with
      | inl e => [list_endpoints namespace (inl e); display_error (message e)]
      | inr eps => list_endpoints namespace (inr eps)
                   :: flat_map endpoint_events eps
      end
  end.

(** The calls of one pass of the loop over namespaces, and the exception
    that ends it, if one does. *)
Definition namespace_calls (pl : string) (context : ClusterContext)
           (a : option (client K)) (namespace : string)
  : list event * option exn :=
  match a with
  | None => ([], Some (no_attribute "InventoryModule" "api"))
  | Some c =>
      match list_namespaced_pod K c namespace with
      | inl e => ([list_pod namespace (inl e)], Some e)
      | inr pods =>
          ((list_pod namespace (inr pods)
            :: flat_map (pod_events pl context namespace) pods)
           ++ service_calls a namespace, None)%list
      end
  end.

(** A loop whose passes make the calls [f x], up to the first exception. *)
Fixpoint loop_calls {A} (f : A -> list event * option exn) (l : list A)
  : list event * option exn :=
  match l with
  | [] => ([], None)
  | x :: l' =>
      match f x with
      | (d, Some e) => (d, Some e)
      | (d, None) => let (d', r) := loop_calls f l' in ((d ++ d')%list, r)
      end
  end.

(** The calls of one pass of the loop over contexts, the exception that
    ends it and the handle it leaves. *)
Definition context_calls (pl : string) (a : option (client K))
           (context : ClusterContext)
  : list event * option exn * option (client K) :=
  let (d, a') := connect_calls a context in
  match namespaces context with
  | None =>
      (d, Some (mkExn TypeError "'NoneType' object is not iterable"), a')
  | Some nss =>
      let (d', r) := loop_calls (namespace_calls pl context a') nss in
      ((d ++ d')%list, r, a')
  end.

Fixpoint contexts_calls (pl : string) (a : option (client K))
         (cs : list ClusterContext)
  : list event * option exn * option (client K) :=
  match cs with
  | [] => ([], None, a)
  | context :: cs' =>
      match context_calls pl a context with
      | (d, Some e, a') => (d, Some e, a')
      | (d, None, a') =>
          match contexts_calls pl a' cs' with
          | (d', r, a'') => ((d ++ d')%list, r, a'')
          end
      end
  end.

(** The calls of [_populate] from an object whose handle is [a]. *)
Definition run_calls (doc : yaml_doc) (a : option (client K)) : list event :=
  match doc with
  | YOther ty => [display_error (message (no_attribute ty "get"))]
  | YMapping cfg =>
      match contexts cfg with
      | None => [display_error "'NoneType' object is not iterable"]
      | Some cs =>
          match contexts_calls (doc_plugin doc) a cs with
          | (d, None, _) => d
          | (d, Some e, _) => (d ++ [display_error (message e)])%list
          end
      end
  end.

(** The handle after the calls [d], from the handle [a]: that of the last
    connection that succeeded. *)
Definition handle_after (a : option (client K)) (d : list event)
  : option (client K) :=
  fold_left (fun a e => match e with
                        | load_config src None =>
                            match kube_load K src with
                            | inr c => Some c
                            | inl _ => a
                            end
                        | _ => a
                        end) d a.

(** The listing [e], if it is one, went through the handle [h] and
    returned what the cluster answers to it. *)
Definition listing_through (h : option (client K)) (e : event) : Prop :=
  match e with
  | list_pod namespace r =>
      exists c, h = Some c /\ r = list_namespaced_pod K c namespace
  | list_endpoints namespace r =>
      exists c, h = Some c /\ r = list_namespaced_endpoints K c namespace
  | _ => True
  end.

(** Every listing among the calls [d] went through the handle of the last
    connection that had succeeded by then, from the handle [a]. *)
Definition tracked (a : option (client K)) (d : list event) : Prop :=
  forall pre e post,
    d = (pre ++ e :: post)%list -> listing_through (handle_after a pre) e.

End Calls.

(** A context that uses the local credentials and has no [namespaces]
    key, and a configuration that has it between two others. *)
Definition unscoped_ctx : ClusterContext :=
  mkContext (Some "unscoped") None None None None (Some true) None None.

Definition unscoped_between : yaml_doc :=
  YMapping (mkConfig None (Some [Scenario.file_ctx; unscoped_ctx;
                                 Scenario.local_ctx])).

(** The namespaces whose pods a run asked for, in order. *)
Definition pod_listing_namespaces (d : list event) : list string :=
  flat_map (fun e => match e with list_pod ns _ => [ns] | _ => [] end) d.

Definition reports (d : list event) : list string :=
  flat_map (fun e => match e with display_error m => [m] | _ => [] end) d.

(** [m] from [s] makes the calls [d], ends as [r] says and leaves the
    handle [a']; the plugin name is the same. *)
Definition runs {K : Kubernetes} (m : M K unit) (s : self K)
           (d : list event) (r : option exn) (a' : option (client K))
  : Prop :=
  exists s', m s = (result_of r, s')
             /\ trace s' = (trace s ++ d)%list
             /\ api s' = a' /\ plugin s' = plugin s.

(** ** Names, and some more clusters *)

(** The characters of the names a cluster gives to pods and containers
    (RFC 1123 labels and subdomains): lower-case letters, digits, ["-"] and
    ["."]. *)
Definition is_name_char (c : ascii) : bool :=
  let n := nat_of_ascii c in
  (Nat.leb 97 n && Nat.leb n 122) || (Nat.leb 48 n && Nat.leb n 57)
  || Nat.eqb n 45 || Nat.eqb n 46.

Fixpoint kubernetes_name (s : string) : bool :=
  match s with
  | EmptyString => true
  | String c s' => is_name_char c && kubernetes_name s'
  end.

(** Two replicas of one deployment, each with the same two containers. *)
Definition replica_1 : Pod :=
  mkPod "web-1" [("app", "web")] [mkContainer "app"; mkContainer "sidecar"].

Definition replica_2 : Pod :=
  mkPod "web-2" [("app", "web")] [mkContainer "app"; mkContainer "sidecar"].

Definition replicated : Kubernetes :=
  Scenario.cluster [replica_1; replica_2] [Scenario.web_svc]
                   Scenario.two_contexts.

(** The cluster of [Scenario.serving] with the endpoints of ["ns1"] out of
    reach. *)
Definition endpoints_refused : Kubernetes :=
  {| client := unit;
     kube_load := fun _ => inr tt;
     list_namespaced_pod := fun _ _ =>
       inr [Scenario.web_1; Scenario.web_build_1];
     list_namespaced_endpoints := fun _ namespace =>
       if String.eqb namespace "ns1"
       then inl (mkExn ApiException "(403) Reason: Forbidden")
       else inr [Scenario.web_svc];
     load_from_file := fun _ => inr Scenario.two_contexts |}.

(** A context with every optional key, and a configuration in which it
    comes after a context with none of them that lists one of its
    namespaces. *)
Definition full_ctx : ClusterContext :=
  mkContext (Some "full") (Some "k8s.example.com") (Some 6443%Z)
            (Some "s3cr3t") (Some "admin") (Some false)
            (Some "/etc/kube.conf") (Some ["ns0"; "ns1"]).

Definition same_namespace_twice : yaml_doc :=
  YMapping (mkConfig (Some "kubectl") (Some [Scenario.local_ctx; full_ctx])).

(** The calls of a run of that configuration on the two replicas: the
    first context lists ["ns1"], the second ["ns0"] and then ["ns1"]
    again. *)
Definition run_twice : list event :=
  events_of (_populate replicated same_namespace_twice) fresh.


(** The two contexts of the scenarios on the cluster whose endpoints of
    ["ns1"] are out of reach. *)
Definition run_refused : list event :=
  events_of (_populate endpoints_refused Scenario.two_contexts) fresh.

(** * Proofs *)

(** ** Events in their context *)

Section LocallyFacts.

Context {E : Type}.
Implicit Types Q : list E -> E -> list E -> Prop.
Local Open Scope list_scope.

Lemma locally_nil Q : locally Q [].
Proof. intros pre e post H. destruct pre; discriminate. Qed.

Lemma split_app (a b pre : list E) e post :
  a ++ b = pre ++ e :: post ->
  (exists l, a = pre ++ e :: l /\ post = l ++ b) \/
  (exists l, pre = a ++ l /\ b = l ++ e :: post).
Proof.
  revert pre. induction a as [|x a IH]; intros pre H; simpl in H.
  - right. exists pre. auto.
  - destruct pre as [|y pre]; simpl in H; inversion H; subst.
    + left. exists a. auto.
    + destruct (IH _ H2) as [[l [-> ->]]|[l [-> ->]]].
      * left; exists l; auto.
      * right; exists l; auto.
Qed.

Lemma flat_map_split {A} (f : A -> list E) l pre e post :
  flat_map f l = pre ++ e :: post ->
  exists l1 x l2 p1 p2,
    l = l1 ++ x :: l2 /\ f x = p1 ++ e :: p2
    /\ pre = flat_map f l1 ++ p1 /\ post = p2 ++ flat_map f l2.
Proof.
  revert pre. induction l as [|x l IH]; intros pre H; simpl in H.
  - destruct pre; discriminate.
  - apply split_app in H. destruct H as [[p2 [H ->]]|[p [-> H]]].
    + exists [], x, l, pre, p2. auto.
    + destruct (IH _ H) as (l1 & y & l2 & p1 & p2 & -> & E2 & -> & ->).
      exists (x :: l1), y, l2, p1, p2. simpl. rewrite app_assoc. auto.
Qed.

Lemma locally_app Q a b :
  extensible Q -> locally Q a -> locally Q b -> locally Q (a ++ b).
Proof.
  intros HQ Ha Hb pre e post H.
  apply split_app in H. destruct H as [[l [-> ->]]|[l [-> ->]]].
  - apply (HQ [] b pre e l). apply Ha. reflexivity.
  - specialize (Hb l e post eq_refl). apply (HQ a []) in Hb.
    rewrite app_nil_r in Hb. exact Hb.
Qed.

Lemma locally_concat Q bs :
  extensible Q -> Forall (locally Q) bs -> locally Q (concat bs).
Proof.
  intros HQ H. induction H; simpl.
  - apply locally_nil.
  - apply locally_app; assumption.
Qed.

Lemma locally_flat_map {A} Q (f : A -> list E) l :
  extensible Q -> (forall x, In x l -> locally Q (f x)) ->
  locally Q (flat_map f l).
Proof.
  intros HQ H. induction l as [|x l IH]; simpl.
  - apply locally_nil.
  - apply locally_app; [assumption | apply H; now left |].
    apply IH. intros y Hy. apply H. now right.
Qed.

Lemma locally_mono Q Q' d :
  (forall pre e post, Q pre e post -> Q' pre e post) ->
  locally Q d -> locally Q' d.
Proof. intros H HQ pre e post Hd. apply H, HQ, Hd. Qed.

Lemma locally_cons Q Q' x d :
  Q [] x d ->
  (forall pre e post, d = pre ++ e :: post -> Q' pre e post ->
                      Q (x :: pre) e post) ->
  locally Q' d -> locally Q (x :: d).
Proof.
  intros H0 H1 Hd pre e post H.
  destruct pre as [|y pre]; simpl in H; inversion H; subst.
  - exact H0.
  - apply H1; [reflexivity | apply Hd; reflexivity].
Qed.

End LocallyFacts.

(** ** The methods, one by one *)

Section Run.

Variable K : Kubernetes.
Local Open Scope list_scope.

Lemma log_nil (s : self K) : log [] s = s.
Proof. destruct s; unfold log; simpl. now rewrite app_nil_r. Qed.

Lemma log_log d1 d2 (s : self K) : log d2 (log d1 s) = log (d1 ++ d2) s.
Proof. unfold log; simpl. now rewrite app_assoc. Qed.

Lemma _groupadd_log g c (s : self K) :
  _groupadd K g c s = (Ok tt, log [add_group g; add_child g c] s).
Proof. unfold _groupadd, bind, emit. now rewrite log_log. Qed.

Lemma _hostvars_log ns p c ctx pl h (s : self K) :
  plugin s = Some pl -> inventory_hostname s = Some h ->
  _hostvars K ns p c ctx s = (Ok tt, log (hostvars_events pl ctx ns p c h) s).
Proof.
  intros Hp Hh.
  unfold _hostvars, set_host_variable, bind, getattr, emit.
  repeat (progress (simpl; rewrite ?Hh, ?Hp)).
  rewrite !log_log. reflexivity.
Qed.

Lemma steps_log d (s : self K) : steps s (log d s) d.
Proof. repeat split. Qed.

Lemma steps_trans (s s' s'' : self K) d d' :
  steps s s' d -> steps s' s'' d' -> steps s s'' (d ++ d').
Proof.
  intros (Ha & Hp & Ht) (Ha' & Hp' & Ht'). repeat split.
  - congruence.
  - congruence.
  - rewrite Ht', Ht. now rewrite app_assoc.
Qed.

Lemma populate_container_steps ctx ns pod c pl (s : self K) :
  plugin s = Some pl ->
  exists s', populate_container K ctx ns pod c s = (Ok tt, s')
             /\ steps s s' (container_events pl ctx ns pod c).
Proof.
  intros Hp.
  unfold populate_container, bind, set_inventory_hostname.
  erewrite _hostvars_log; [| exact Hp | reflexivity].
  unfold getattr; simpl. rewrite !_groupadd_log, !log_log.
  eexists; split; [reflexivity|]. repeat split.
Qed.

Lemma for_steps {A} (body : A -> M K unit) (f : A -> list event) pl l :
  (forall x s, In x l -> plugin s = Some pl ->
               exists s', body x s = (Ok tt, s') /\ steps s s' (f x)) ->
  forall s, plugin s = Some pl ->
            exists s', for_ K l body s = (Ok tt, s')
                       /\ steps s s' (flat_map f l).
Proof.
  induction l as [|x l IH]; intros H s Hp; simpl.
  - exists s. split; [reflexivity|]. unfold steps. now rewrite app_nil_r.
  - destruct (H x s (or_introl eq_refl) Hp) as (s1 & E1 & S1).
    destruct (IH (fun y t Hy => H y t (or_intror Hy)) s1) as (s2 & E2 & S2).
    { destruct S1 as (_ & -> & _). exact Hp. }
    exists s2. unfold bind. rewrite E1. split; [exact E2|].
    eapply steps_trans; eassumption.
Qed.

Lemma populate_pod_steps ctx ns pod pl (s : self K) :
  plugin s = Some pl ->
  exists s', populate_pod K ctx ns pod s = (Ok tt, s')
             /\ steps s s' (pod_events pl ctx ns pod).
Proof.
  intros Hp. unfold populate_pod, pod_events, is_build_pod.
  destruct (contains "-build" (pod_name pod)); simpl.
  - exists s. split; [reflexivity|]. unfold steps. now rewrite app_nil_r.
  - destruct (for_steps (populate_container K ctx ns pod)
                (container_events pl ctx ns pod) pl (containers pod))
      with (s := s) as (s1 & E1 & S1); [|exact Hp|].
    { intros x t _ Ht. now apply populate_container_steps. }
    destruct (for_steps
                (fun kv => _groupadd K (fst kv ++ "_" ++ snd kv)%string
                                     (pod_name pod))
                (label_events pod) pl (labels pod))
      with (s := s1) as (s2 & E2 & S2).
    { intros x t _ Ht. rewrite _groupadd_log. eexists; split; [reflexivity|].
      apply steps_log. }
    { destruct S1 as (_ & -> & _). exact Hp. }
    exists s2. unfold bind. rewrite E1. split; [exact E2|].
    eapply steps_trans; eassumption.
Qed.

Lemma for_log {A} (body : A -> M K unit) (f : A -> list event) l :
  (forall x s, body x s = (Ok tt, log (f x) s)) ->
  forall s, for_ K l body s = (Ok tt, log (flat_map f l) s).
Proof.
  intros H. induction l as [|x l IH]; intros s; simpl.
  - unfold ret. now rewrite log_nil.
  - unfold bind. now rewrite H, IH, log_log.
Qed.

Lemma service_address_log svc a (s : self K) :
  service_address K svc a s = (Ok tt, log (address_events svc a) s).
Proof.
  unfold service_address, try_except_kind, address_events.
  destruct (target_ref a) as [r|];
    [destruct (contains "Pod" (ref_kind r))|];
    unfold emit, ret; rewrite ?log_nil; reflexivity.
Qed.

Lemma service_endpoint_log e (s : self K) :
  bind K (emit K (add_group (service_name e)))
       (fun _ => for_ K (subsets e) (fun sub =>
          for_ K (addresses sub) (service_address K (service_name e)))) s
  = (Ok tt, log (endpoint_events e) s).
Proof.
  unfold bind, emit, endpoint_events.
  rewrite (for_log _ (fun sub => flat_map (address_events (service_name e))
                                          (addresses sub))).
  - now rewrite log_log.
  - intros sub t. apply for_log. intros a u. apply service_address_log.
Qed.

Lemma _kube_service_group_no_api ns (s : self K) :
  api s = None ->
  _kube_service_group K ns s
  = (Ok tt, log [display_error
                   (message (no_attribute "InventoryModule" "api"))] s).
Proof.
  intros H. unfold _kube_service_group, try_except, bind, getattr.
  rewrite H. reflexivity.
Qed.

Lemma _kube_service_group_failed ns c e (s : self K) :
  api s = Some c -> list_namespaced_endpoints K c ns = inl e ->
  _kube_service_group K ns s
  = (Ok tt, log [list_endpoints ns (inl e); display_error (message e)] s).
Proof.
  intros H He.
  unfold _kube_service_group, try_except, bind, getattr,
    call_list_namespaced_endpoints.
  rewrite H. unfold bind, emit. rewrite He. simpl.
  unfold _fail, emit. now rewrite log_log.
Qed.

Lemma _kube_service_group_listed ns c eps (s : self K) :
  api s = Some c -> list_namespaced_endpoints K c ns = inr eps ->
  _kube_service_group K ns s
  = (Ok tt, log (list_endpoints ns (inr eps)
                 :: flat_map endpoint_events eps) s).
Proof.
  intros H He.
  unfold _kube_service_group, try_except, getattr,
    call_list_namespaced_endpoints, bind.
  rewrite H, He. simpl.
  rewrite (for_log _ endpoint_events).
  - unfold emit. now rewrite log_log.
  - intros e t. apply service_endpoint_log.
Qed.

Lemma _kube_service_group_returns ns (s : self K) :
  fst (_kube_service_group K ns s) = Ok tt.
Proof.
  destruct (api s) as [c|] eqn:Ha.
  - destruct (list_namespaced_endpoints K c ns) as [e|eps] eqn:He.
    + now rewrite (_kube_service_group_failed ns c e s Ha He).
    + now rewrite (_kube_service_group_listed ns c eps s Ha He).
  - now rewrite (_kube_service_group_no_api ns s Ha).
Qed.

(** [_connect] once the credentials are chosen. *)
Lemma connect_via src (s : self K) :
  try_except K (bind K (call_kube_load K src) (fun c => set_api K c))
             (fun e => _fail K (message e)) s
  = connect_outcome src s.
Proof.
  unfold connect_outcome, try_except, bind, call_kube_load.
  destruct (kube_load K src) as [e|c]; unfold bind, emit, ret, raise; simpl.
  - unfold _fail, emit. now rewrite log_log.
  - reflexivity.
Qed.

Lemma _connect_block ctx pl cs (s : self K) :
  exists s' b, _connect K ctx s = (Ok tt, s') /\ plugin s' = plugin s
               /\ trace s' = trace s ++ b /\ block pl cs b.
Proof.
  assert (Hvia : forall src,
    exists s' b,
      try_except K (bind K (call_kube_load K src) (fun c => set_api K c))
                 (fun e => _fail K (message e)) s = (Ok tt, s')
      /\ plugin s' = plugin s /\ trace s' = trace s ++ b /\ block pl cs b).
  { intros src. rewrite connect_via. unfold connect_outcome.
    destruct (kube_load K src) as [e|c]; eexists; eexists;
      (split; [reflexivity|]); (split; [reflexivity|]);
      (split; [reflexivity|]); constructor. }
  unfold _connect.
  destruct (truthy_bool (local_kube_config ctx)); [apply Hvia|].
  destruct (truthy_str (kubernetes_config_file ctx)).
  { destruct (kubernetes_config_file ctx); apply Hvia. }
  destruct (_generate_kubernetes_config ctx) as [e|[cfg active]] eqn:G.
  - exists (log [display_error (message e)] s), [display_error (message e)].
    unfold try_except, bind, lift. simpl.
    repeat split. constructor.
  - unfold lift. simpl. apply (Hvia (Inline cfg active)).
Qed.

Lemma populate_namespace_shaped pl cs ctx ns :
  In ctx cs -> In ns (context_namespaces ctx) ->
  shaped pl cs (populate_namespace K ctx ns).
Proof.
  intros Hctx Hns s Hp.
  unfold populate_namespace, getattr, call_list_namespaced_pod, bind, emit.
  destruct (api s) as [c|] eqn:Ha.
  2:{ exists (Raise (no_attribute "InventoryModule" "api")), s, [], [].
      simpl. rewrite app_nil_r. repeat split; auto. }
  destruct (list_namespaced_pod K c ns) as [e|pods] eqn:Hl; simpl.
  { exists (Raise e), (log [list_pod ns (inl e)] s), [],
      [list_pod ns (inl e)].
    repeat split; auto. simpl. right. now exists ns. }
  destruct (for_steps (populate_pod K ctx ns) (pod_events pl ctx ns) pl pods)
    with (s := log [list_pod ns (inr pods)] s) as (s1 & E1 & S1).
  { intros x t _ Ht. now apply populate_pod_steps. }
  { exact Hp. }
  rewrite E1.
  destruct S1 as (A1 & P1 & T1). simpl in A1, P1, T1.
  assert (Hblk : block pl cs (list_pod ns (inr pods)
                              :: flat_map (pod_events pl ctx ns) pods))
    by now constructor.
  destruct (list_namespaced_endpoints K c ns) as [e|eps] eqn:He.
  - rewrite (_kube_service_group_failed ns c e) by congruence.
    eexists; eexists;
      exists [list_pod ns (inr pods) :: flat_map (pod_events pl ctx ns) pods;
              [list_endpoints ns (inl e); display_error (message e)]], [].
    split; [reflexivity|]. split; [simpl; congruence|].
    split; [apply Forall_cons; [exact Hblk | repeat constructor]|].
    split; [reflexivity|].
    simpl. rewrite T1, <- !app_assoc. reflexivity.
  - rewrite (_kube_service_group_listed ns c eps) by congruence.
    eexists; eexists;
      exists [list_pod ns (inr pods) :: flat_map (pod_events pl ctx ns) pods;
              list_endpoints ns (inr eps) :: flat_map endpoint_events eps],
             [].
    split; [reflexivity|]. split; [simpl; congruence|].
    split; [apply Forall_cons; [exact Hblk | repeat constructor]|].
    split; [reflexivity|].
    simpl. rewrite T1, <- !app_assoc, !app_nil_r. reflexivity.
Qed.

Lemma for_shaped {A} pl cs (body : A -> M K unit) l :
  (forall x, In x l -> shaped pl cs (body x)) -> shaped pl cs (for_ K l body).
Proof.
  induction l as [|x l IH]; intros H s Hp; simpl.
  - exists (Ok tt), s, [], []. simpl. rewrite app_nil_r. repeat split; auto.
  - destruct (H x (or_introl eq_refl) s Hp)
      as (r & s1 & bs & fin & E1 & P1 & B1 & F1 & T1).
    unfold bind. rewrite E1. destruct r as [[]|e].
    + destruct (IH (fun y Hy => H y (or_intror Hy)) s1 P1)
        as (r2 & s2 & bs2 & fin2 & E2 & P2 & B2 & F2 & T2).
      exists r2, s2, (bs ++ bs2), fin2. simpl in F1. subst fin.
      repeat split; auto.
      * apply Forall_app; auto.
      * rewrite T2, T1, concat_app, <- !app_assoc. reflexivity.
    + exists (Raise e), s1, bs, fin. repeat split; auto.
Qed.

Lemma populate_context_shaped pl cs ctx :
  In ctx cs -> shaped pl cs (populate_context K ctx).
Proof.
  intros Hctx s Hp. unfold populate_context.
  destruct (_connect_block ctx pl cs s) as (s1 & b & E1 & P1 & T1 & B1).
  unfold bind. rewrite E1.
  unfold iterate, context_namespaces in *.
  destruct (namespaces ctx) as [nss|] eqn:Hn.
  - unfold ret.
    destruct (for_shaped pl cs (populate_namespace K ctx) nss) with (s := s1)
      as (r2 & s2 & bs2 & fin2 & E2 & P2 & B2 & F2 & T2).
    { intros ns Hns. apply populate_namespace_shaped; auto.
      unfold context_namespaces. now rewrite Hn. }
    { congruence. }
    exists r2, s2, (b :: bs2), fin2.
    rewrite E2. repeat split; auto.
    rewrite T2, T1. simpl. rewrite <- !app_assoc. reflexivity.
  - unfold raise.
    eexists; exists s1, [b], []. split; [reflexivity|].
    repeat split; auto; try congruence.
    + simpl. now left.
    + simpl. rewrite T1, !app_nil_r. reflexivity.
Qed.

Lemma skipn_length_app {A} (a b : list A) : skipn (length a) (a ++ b) = b.
Proof. induction a; simpl; auto. Qed.

(** Every run of [_populate] returns, and its calls are blocks followed by
    a closing. *)
Lemma populate_shape doc (s : self K) :
  exists s' bs fin,
    _populate K doc s = (Ok tt, s')
    /\ Forall (block (doc_plugin doc) (doc_contexts doc)) bs
    /\ closing fin
    /\ trace s' = trace s ++ concat bs ++ fin.
Proof.
  unfold _populate, try_except.
  destruct doc as [cfg|ty]; unfold bind, set_plugin; simpl.
  2:{ eexists; exists [[display_error (message (no_attribute ty "get"))]], [].
      split; [reflexivity|]. split; [repeat constructor|].
      split; [now left|]. reflexivity. }
  set (pl := match plugin_name cfg with
             | Some p => p
             | None => "kubernetes"%string
             end).
  set (s0 := {| api := api s; plugin := Some pl;
                inventory_hostname := inventory_hostname s;
                trace := trace s |}).
  unfold iterate. destruct (contexts cfg) as [cs|] eqn:Hc.
  - unfold ret.
    destruct (for_shaped pl cs (populate_context K) cs) with (s := s0)
      as (r & s1 & bs & fin & E & P & B & F & T).
    { intros ctx Hctx. now apply populate_context_shaped. }
    { reflexivity. }
    rewrite E. destruct r as [[]|e]; simpl in F.
    + subst fin. exists s1, bs, []. repeat split; auto. now left.
    + destruct F as [->|[ns ->]].
      * exists (log [display_error (message e)] s1),
          (bs ++ [[display_error (message e)]]), [].
        split; [reflexivity|]. split.
        { apply Forall_app; split; auto. repeat constructor. }
        split; [now left|].
        simpl. rewrite T, concat_app. simpl. rewrite <- !app_assoc.
        reflexivity.
      * exists (log [display_error (message e)] s1), bs,
          [list_pod ns (inl e); display_error (message e)].
        split; [reflexivity|]. split; [exact B|].
        split; [right; now exists ns, e|].
        simpl. rewrite T, <- !app_assoc. reflexivity.
  - unfold raise.
    eexists; eexists [[display_error _]], [].
    split; [reflexivity|]. split; [repeat constructor|].
    split; [now left|]. reflexivity.
Qed.

Lemma events_of_populate doc (s : self K) :
  exists bs fin,
    fst (_populate K doc s) = Ok tt
    /\ trace (snd (_populate K doc s))
       = trace s ++ events_of (_populate K doc) s
    /\ events_of (_populate K doc) s = concat bs ++ fin
    /\ Forall (block (doc_plugin doc) (doc_contexts doc)) bs
    /\ closing fin.
Proof.
  destruct (populate_shape doc s) as (s' & bs & fin & E & B & F & T).
  exists bs, fin. unfold events_of. rewrite E. simpl.
  rewrite T, skipn_length_app. auto.
Qed.

End Run.

(** ** The calls of a run, event by event *)

Lemma split_cons {E} (x : E) d pre e post :
  (x :: d = pre ++ e :: post)%list ->
  (pre = [] /\ e = x /\ post = d)
  \/ (exists pre', pre = x :: pre' /\ d = (pre' ++ e :: post)%list).
Proof.
  intros H. destruct pre as [|y pre]; simpl in H; inversion H; subst.
  - left. auto.
  - right. eauto.
Qed.

Lemma split_nil {E} (pre : list E) e post :
  ([] = pre ++ e :: post)%list -> False.
Proof. destruct pre; discriminate. Qed.

(** Every way to single out an event of a list that is written out. *)
Ltac enum H :=
  lazymatch type of H with
  | [] = (_ ++ _ :: _)%list => exfalso; exact (split_nil _ _ _ H)
  | _ :: _ = (_ ++ _ :: _)%list =>
      apply split_cons in H;
      let pre' := fresh "pre" in
      destruct H as [(-> & -> & ->) | (pre' & -> & H)]; [ | enum H]
  end.

Section RunEvents.

Variable K : Kubernetes.
Local Open Scope list_scope.

Lemma locally_Forall {E} (P : E -> Prop) (Q : list E -> E -> list E -> Prop)
      d :
  Forall P d -> (forall pre e post, P e -> Q pre e post) -> locally Q d.
Proof.
  intros H HQ pre e post ->. apply HQ.
  rewrite Forall_forall in H. apply H. apply in_elt.
Qed.

Lemma populate_locally (Q : list event -> event -> list event -> Prop)
      doc (s : self K) :
  extensible Q ->
  (forall b, block (doc_plugin doc) (doc_contexts doc) b -> locally Q b) ->
  (forall fin, closing fin -> locally Q fin) ->
  locally Q (events_of (_populate K doc) s).
Proof.
  intros HQ Hb Hf.
  destruct (events_of_populate K doc s) as (bs & fin & _ & _ & -> & B & F).
  apply locally_app; [exact HQ | | apply Hf, F].
  apply locally_concat; [exact HQ|].
  eapply Forall_impl; [|exact B]. exact Hb.
Qed.

Lemma populate_additive (P : list event -> Prop) doc (s : self K) :
  P [] -> (forall a b, P a -> P b -> P (a ++ b)) ->
  (forall b, block (doc_plugin doc) (doc_contexts doc) b -> P b) ->
  (forall fin, closing fin -> P fin) ->
  P (events_of (_populate K doc) s).
Proof.
  intros H0 Happ Hb Hf.
  destruct (events_of_populate K doc s) as (bs & fin & _ & _ & -> & B & F).
  apply Happ; [|apply Hf, F]. induction B; simpl; auto.
Qed.

Lemma container_events_inventory pl ctx ns pod c :
  Forall (fun e => is_inventory_call e = true)
         (container_events pl ctx ns pod c).
Proof. unfold container_events, hostvars_events. repeat constructor. Qed.

Lemma pod_events_inventory pl ctx ns pod :
  Forall (fun e => is_inventory_call e = true) (pod_events pl ctx ns pod).
Proof.
  unfold pod_events. destruct (is_build_pod pod); [constructor|].
  apply Forall_app. split; apply Forall_flat_map, Forall_forall; intros x _.
  - apply container_events_inventory.
  - repeat constructor.
Qed.

Lemma pods_events_inventory pl ctx ns pods :
  Forall (fun e => is_inventory_call e = true)
         (flat_map (pod_events pl ctx ns) pods).
Proof.
  apply Forall_flat_map, Forall_forall. intros pod _.
  apply pod_events_inventory.
Qed.

Lemma endpoint_events_groups ep :
  Forall (fun e => is_group_call e = true) (endpoint_events ep).
Proof.
  unfold endpoint_events. constructor; [reflexivity|].
  apply Forall_flat_map, Forall_forall. intros sub _.
  apply Forall_flat_map, Forall_forall. intros a _.
  unfold address_events. destruct (target_ref a) as [r|]; [|constructor].
  destruct (contains "Pod" (ref_kind r)); repeat constructor.
Qed.

Lemma endpoints_events_groups eps :
  Forall (fun e => is_group_call e = true) (flat_map endpoint_events eps).
Proof.
  apply Forall_flat_map, Forall_forall. intros ep _.
  apply endpoint_events_groups.
Qed.

Lemma created_by_extensible pl cs : extensible (created_by pl cs).
Proof.
  intros a b pre e post H h He.
  destruct (H h He)
    as (ctx & ns & pods & pod & c & rest & H1 & H2 & H3 & H4 & H5 & H6
        & H7 & H8).
  exists ctx, ns, pods, pod, c, (rest ++ b). repeat split; auto.
  - apply in_or_app. now right.
  - rewrite app_comm_cons, H8, app_assoc. reflexivity.
Qed.

Lemma container_events_created_by pl ctx ns pod c :
  locally (fun pre e post =>
             forall h, e = add_host h ->
               h = host_key (container_name c) (pod_name pod)
               /\ add_host h :: post = container_events pl ctx ns pod c)
          (container_events pl ctx ns pod c).
Proof.
  intros pre e post H. unfold container_events, hostvars_events in H.
  simpl in H. enum H; intros h He; try discriminate.
  inversion He; subst. split; reflexivity.
Qed.

Lemma block_created_by pl cs b : block pl cs b -> locally (created_by pl cs) b.
Proof.
  intros [m|src|src x|ctx ns pods Hctx Hns|ns eps|ns x].
  1-3, 6: intros pre e post H; enum H; intros h He; discriminate.
  - apply locally_cons with
      (Q' := fun pre e post =>
               forall h, e = add_host h ->
                 exists pod c rest,
                   In pod pods /\ is_build_pod pod = false
                   /\ In c (containers pod)
                   /\ h = host_key (container_name c) (pod_name pod)
                   /\ add_host h :: post
                      = container_events pl ctx ns pod c ++ rest).
    + intros h He. discriminate.
    + intros pre e post _ H h He.
      destruct (H h He) as (pod & c & rest & H1 & H2 & H3 & H4 & H5).
      exists ctx, ns, pods, pod, c, rest. repeat split; auto. now left.
    + apply locally_flat_map.
      { intros a0 b0 pre e post H h He.
        destruct (H h He) as (pod & c & rest & H1 & H2 & H3 & H4 & H5).
        exists pod, c, (rest ++ b0). repeat split; auto.
        rewrite app_comm_cons, H5, app_assoc. reflexivity. }
      intros pod Hpod. unfold pod_events.
      destruct (is_build_pod pod) eqn:Hb; [apply locally_nil|].
      intros pre e post H h He. apply split_app in H.
      destruct H as [[l [H ->]]|[l [-> H]]].
      * apply flat_map_split in H.
        destruct H as (l1 & c & l2 & p1 & p2 & E1 & E2 & _ & ->).
        destruct (container_events_created_by pl ctx ns pod c p1 e p2 E2 h He)
          as [Hk Hp].
        exists pod, c,
          (flat_map (container_events pl ctx ns pod) l2
           ++ flat_map (label_events pod) (labels pod)).
        repeat split; auto.
        { rewrite E1. apply in_elt. }
        { rewrite <- Hp. simpl. now rewrite <- app_assoc. }
      * exfalso. subst e.
        assert (Hin : In (add_host h) (flat_map (label_events pod)
                                                (labels pod)))
          by (rewrite H; apply in_elt).
        apply in_flat_map in Hin. destruct Hin as (kv & _ & Hin).
        simpl in Hin. destruct Hin as [?|[?|[]]]; discriminate.
  - apply locally_Forall with (P := fun e => is_group_call e = true \/
                                             exists r, e = list_endpoints ns r).
    + constructor; [right; eauto|].
      eapply Forall_impl; [|apply endpoints_events_groups]. auto.
    + intros pre e post [He|[r He]] h Hh; subst; discriminate.
Qed.

Lemma closing_cases (Q : list event -> event -> list event -> Prop) fin :
  closing fin ->
  (forall ns x, locally Q [list_pod ns (inl x); display_error (message x)]) ->
  locally Q fin.
Proof.
  intros [->|(ns & x & ->)] H; [apply locally_nil | apply H].
Qed.

(** Every host of a run is created from a container of a listed pod. *)
Lemma populate_created_by doc (s : self K) :
  locally (created_by (doc_plugin doc) (doc_contexts doc))
          (events_of (_populate K doc) s).
Proof.
  apply populate_locally.
  - apply created_by_extensible.
  - apply block_created_by.
  - intros fin F. apply closing_cases; [exact F|].
    intros ns x pre e post H. enum H; intros h He; discriminate.
Qed.

Lemma followed_by_pods_extensible pl cs : extensible (followed_by_pods pl cs).
Proof.
  intros a0 b0 pre e post H ns pods He.
  destruct (H ns pods He) as (ctx & rest & H1 & H2 & ->).
  exists ctx, (rest ++ b0). repeat split; auto. now rewrite app_assoc.
Qed.

Lemma block_followed_by_pods pl cs b :
  block pl cs b -> locally (followed_by_pods pl cs) b.
Proof.
  intros [m|src|src x|ctx ns pods Hctx Hns|ns eps|ns x].
  1-3, 6: intros pre e post H; enum H; intros ns' pods' He; discriminate.
  - apply locally_cons with
      (Q' := fun _ e _ => is_inventory_call e = true).
    + intros ns' pods' He. inversion He; subst.
      exists ctx, []. rewrite app_nil_r. auto.
    + intros pre e post _ H ns' pods' He. subst. discriminate.
    + eapply locally_Forall; [apply pods_events_inventory | auto].
  - apply locally_Forall with (P := fun e => is_group_call e = true \/
                                             exists r, e = list_endpoints ns r).
    + constructor; [right; eauto|].
      eapply Forall_impl; [|apply endpoints_events_groups]. auto.
    + intros pre e post [He|[r He]] ns' pods' Hh; subst; discriminate.
Qed.

(** Every pod listing of a run that succeeds is followed at once by the
    calls for its pods. *)
Lemma populate_followed_by_pods doc (s : self K) :
  locally (followed_by_pods (doc_plugin doc) (doc_contexts doc))
          (events_of (_populate K doc) s).
Proof.
  apply populate_locally.
  - apply followed_by_pods_extensible.
  - apply block_followed_by_pods.
  - intros fin F. apply closing_cases; [exact F|].
    intros ns x pre e post H. enum H; intros ns' pods' He; discriminate.
Qed.

Lemma group_created_before_extensible : extensible group_created_before.
Proof.
  intros a0 b0 pre e post H g c He. apply in_or_app. right. eauto.
Qed.

Lemma container_events_grouped pl ctx ns pod c :
  locally group_created_before (container_events pl ctx ns pod c).
Proof.
  intros pre e post H. unfold container_events, hostvars_events in H.
  simpl in H. enum H; intros g ch He; try discriminate;
    inversion He; subst; simpl; repeat ((left; reflexivity) || right).
Qed.

Lemma pod_events_grouped pl ctx ns pod :
  locally group_created_before (pod_events pl ctx ns pod).
Proof.
  unfold pod_events. destruct (is_build_pod pod); [apply locally_nil|].
  apply locally_app; [apply group_created_before_extensible | |];
    apply locally_flat_map; try apply group_created_before_extensible.
  - intros c _. apply container_events_grouped.
  - intros kv _ pre e post H. unfold label_events in H.
    enum H; intros g ch He; try discriminate.
    inversion He; subst. now left.
Qed.

Lemma endpoint_events_grouped ep :
  locally group_created_before (endpoint_events ep).
Proof.
  unfold endpoint_events.
  apply locally_cons with
    (Q' := fun _ e _ => forall g c, e = add_child g c -> g = service_name ep).
  - intros g c He. discriminate.
  - intros pre e post _ H g c He. left. f_equal. symmetry. eauto.
  - eapply locally_Forall with
      (P := fun e => forall g c, e = add_child g c -> g = service_name ep);
      [|auto].
    apply Forall_flat_map, Forall_forall. intros sub _.
    apply Forall_flat_map, Forall_forall. intros a _.
    unfold address_events. destruct (target_ref a) as [r|]; [|constructor].
    destruct (contains "Pod" (ref_kind r)); repeat constructor.
    intros g c He. now inversion He.
Qed.

Lemma block_grouped pl cs b : block pl cs b -> locally group_created_before b.
Proof.
  intros [m|src|src x|ctx ns pods Hctx Hns|ns eps|ns x].
  1-3, 6: intros pre e post H; enum H; intros g c He; discriminate.
  - apply locally_cons with (Q' := group_created_before).
    + intros g c He. discriminate.
    + intros pre e post _ H g c He. right. eauto.
    + apply locally_flat_map; [apply group_created_before_extensible|].
      intros pod _. apply pod_events_grouped.
  - apply locally_cons with (Q' := group_created_before).
    + intros g c He. discriminate.
    + intros pre e post _ H g c He. right. eauto.
    + apply locally_flat_map; [apply group_created_before_extensible|].
      intros ep _. apply endpoint_events_grouped.
Qed.

Lemma reported_next_extensible : extensible reported_next.
Proof.
  intros a0 b0 pre e post H x Hx. destruct (H x Hx) as (rest & ->).
  exists (rest ++ b0). reflexivity.
Qed.

Lemma inventory_call_no_failure e :
  is_inventory_call e = true -> failure_of e = None.
Proof. destruct e; simpl; congruence. Qed.

Lemma group_call_inventory e :
  is_group_call e = true -> is_inventory_call e = true.
Proof. destruct e; simpl; congruence. Qed.

Lemma block_reported pl cs b : block pl cs b -> locally reported_next b.
Proof.
  intros [m|src|src x|ctx ns pods Hctx Hns|ns eps|ns x].
  1-3, 6: intros pre e post H; enum H; intros y Hy; simpl in Hy;
    try discriminate; inversion Hy; subst; eexists; reflexivity.
  - apply locally_Forall with (P := fun e => failure_of e = None).
    + constructor; [reflexivity|].
      eapply Forall_impl; [|apply pods_events_inventory].
      apply inventory_call_no_failure.
    + intros pre e post He y Hy. congruence.
  - apply locally_Forall with (P := fun e => failure_of e = None).
    + constructor; [reflexivity|].
      eapply Forall_impl; [|apply endpoints_events_groups].
      intros e He. apply inventory_call_no_failure, group_call_inventory, He.
    + intros pre e post He y Hy. congruence.
Qed.

Lemma additive_flat_map {A} (P : list event -> Prop) (f : A -> list event) l :
  P [] -> (forall a b, P a -> P b -> P (a ++ b)) ->
  (forall x, In x l -> P (f x)) -> P (flat_map f l).
Proof.
  intros H0 Happ H. induction l as [|x l IH]; simpl; [exact H0|].
  apply Happ; [apply H; now left | apply IH; intros y Hy; apply H; now right].
Qed.

Lemma group_calls_quiet d :
  Forall (fun e => is_group_call e = true) d ->
  variables_set d = [] /\ hosts_added d = [] /\ listed_pods d = [].
Proof.
  induction 1 as [|e d He _ (IH1 & IH2 & IH3)]; [auto|].
  unfold variables_set, hosts_added, listed_pods in *. simpl.
  rewrite IH1, IH2, IH3. destruct e; try discriminate; auto.
Qed.

(** A run sets nine variables per host it creates. *)
Lemma populate_counts doc (s : self K) :
  length (variables_set (events_of (_populate K doc) s))
  = 9 * length (hosts_added (events_of (_populate K doc) s)).
Proof.
  set (P := fun d => length (variables_set d) = 9 * length (hosts_added d)).
  assert (P0 : P []) by reflexivity.
  assert (Papp : forall a b, P a -> P b -> P (a ++ b)).
  { unfold P, variables_set, hosts_added. intros a b Ha Hb.
    rewrite !flat_map_app, !length_app. lia. }
  apply (populate_additive P); auto.
  - intros b [m|src|src x|ctx ns pods Hctx Hns|ns eps|ns x];
      try reflexivity.
    + change (P (flat_map (pod_events (doc_plugin doc) ctx ns) pods)).
      apply additive_flat_map; auto. intros pod _. unfold pod_events.
      destruct (is_build_pod pod); [exact P0|].
      apply Papp; apply additive_flat_map; auto; intros x _; reflexivity.
    + change (P (flat_map endpoint_events eps)). unfold P.
      destruct (group_calls_quiet _ (endpoints_events_groups eps))
        as (-> & -> & _).
      reflexivity.
  - intros fin [->|(ns & x & ->)]; reflexivity.
Qed.

Lemma container_hosts pl ctx ns pod l :
  hosts_added (flat_map (container_events pl ctx ns pod) l)
  = map (fun c => host_key (container_name c) (pod_name pod)) l.
Proof.
  induction l as [|c l IH]; [reflexivity|].
  change (hosts_added (container_events pl ctx ns pod c
                       ++ flat_map (container_events pl ctx ns pod) l)
          = host_key (container_name c) (pod_name pod)
            :: map (fun c => host_key (container_name c) (pod_name pod)) l).
  unfold hosts_added in *. rewrite flat_map_app, IH. reflexivity.
Qed.


Lemma pod_hosts pl ctx ns pod :
  hosts_added (pod_events pl ctx ns pod) = pod_host_keys pod.
Proof.
  unfold pod_events, pod_host_keys. destruct (is_build_pod pod); [reflexivity|].
  unfold hosts_added. rewrite flat_map_app. fold (hosts_added
    (flat_map (container_events pl ctx ns pod) (containers pod))).
  rewrite container_hosts.
  assert (E : flat_map (fun e => match e with add_host h => [h] | _ => [] end)
                       (flat_map (label_events pod) (labels pod)) = []).
  { induction (labels pod) as [|kv l IH]; [reflexivity|]. simpl. exact IH. }
  rewrite E, app_nil_r. reflexivity.
Qed.


Lemma block_lists_no_failure pl cs b ns x :
  block pl cs b -> ~ In (list_pod ns (inl x)) b.
Proof.
  intros [m|src|src y|ctx ns' pods Hctx Hns|ns' eps|ns' y] Hin;
    simpl in Hin.
  1-3, 6: intuition discriminate.
  - destruct Hin as [Hin|Hin]; [discriminate|].
    pose proof (pods_events_inventory pl ctx ns' pods) as F.
    rewrite Forall_forall in F. apply F in Hin. discriminate.
  - destruct Hin as [Hin|Hin]; [discriminate|].
    pose proof (endpoints_events_groups eps) as F.
    rewrite Forall_forall in F. apply F in Hin. discriminate.
Qed.

(** A pod listing that fails is the last call of a run but for its
    report. *)
Lemma populate_stops_at_failed_listing doc (s : self K) pre ns x post :
  events_of (_populate K doc) s = pre ++ list_pod ns (inl x) :: post ->
  post = [display_error (message x)].
Proof.
  destruct (events_of_populate K doc s) as (bs & fin & _ & _ & -> & B & F).
  intros H. apply split_app in H. destruct H as [[l [H _]]|[l [_ H]]].
  - exfalso.
    assert (Hin : In (list_pod ns (inl x)) (concat bs))
      by (rewrite H; apply in_elt).
    apply in_concat in Hin. destruct Hin as (b & Hb & Hin).
    rewrite Forall_forall in B.
    exact (block_lists_no_failure _ _ b ns x (B b Hb) Hin).
  - destruct F as [->|(ns' & y & ->)].
    + destruct l; discriminate.
    + destruct l as [|a [|b l]]; simpl in H; inversion H; subst.
      * reflexivity.
      * destruct l; discriminate.
Qed.

Lemma for_app {A} (body : A -> M K unit) l1 l2 (s : self K) :
  for_ K (l1 ++ l2) body s
  = match for_ K l1 body s with
    | (Ok _, s') => for_ K l2 body s'
    | (Raise e, s') => (Raise e, s')
    end.
Proof.
  revert s. induction l1 as [|x l1 IH]; intros s; simpl; [reflexivity|].
  unfold bind. destruct (body x s) as [[[]|e] s1]; [apply IH | reflexivity].
Qed.

Lemma populate_unfold pl l (s : self K) :
  _populate K (YMapping (mkConfig pl (Some l))) s
  = match for_ K l (populate_context K)
                (snd (set_plugin K (doc_plugin
                                      (YMapping (mkConfig pl (Some l)))) s))
    with
    | (Ok a, s') => (Ok a, s')
    | (Raise e, s') => (Ok tt, log [display_error (message e)] s')
    end.
Proof. reflexivity. Qed.

(** What a run over the first contexts of a list calls, the run over the
    whole list calls first. *)
Lemma populate_prefix pl cs1 cs2 (s : self K) :
  exists rest,
    events_of (_populate K (YMapping (mkConfig pl (Some (cs1 ++ cs2))))) s
    = events_of (_populate K (YMapping (mkConfig pl (Some cs1)))) s ++ rest.
Proof.
  unfold events_of. rewrite !populate_unfold. simpl doc_plugin.
  set (p := match pl with Some p => p | None => "kubernetes"%string end).
  set (s0 := snd (set_plugin K p s)).
  rewrite for_app.
  destruct (for_shaped K p cs1 (populate_context K) cs1) with (s := s0)
    as (r1 & s1 & bs1 & fin1 & E1 & P1 & _ & _ & T1).
  { intros ctx Hctx. now apply populate_context_shaped. }
  { reflexivity. }
  rewrite E1. destruct r1 as [[]|e].
  2:{ exists []. now rewrite app_nil_r. }
  destruct (for_shaped K p cs2 (populate_context K) cs2) with (s := s1)
    as (r2 & s2 & bs2 & fin2 & E2 & _ & _ & _ & T2).
  { intros ctx Hctx. now apply populate_context_shaped. }
  { exact P1. }
  rewrite E2. change (trace s0) with (trace s) in T1.
  remember (concat bs1 ++ fin1) as d1. remember (concat bs2 ++ fin2) as d2.
  destruct r2 as [[]|e]; simpl; rewrite ?T2, T1, <- !app_assoc,
    !skipn_length_app; eexists; reflexivity.
Qed.

Lemma closing_reported fin : closing fin -> locally reported_next fin.
Proof.
  intros F. apply closing_cases; [exact F|].
  intros ns x pre e post H. enum H; intros y Hy; simpl in Hy;
    try discriminate. inversion Hy; subst. eexists; reflexivity.
Qed.

End RunEvents.

(** ** Host keys *)





(** ** The scenarios of the description *)

(** Scenarios A, B, C and E: the pod ["web-1"] gives the host ["app_web-1"]
    in the groups ["ns1"] and ["web-1"], its label gives the group
    ["app_web"] with the pod as child, the build pod gives nothing, and the
    endpoint gives the group ["web-svc"] with the pod as child. *)
Example scenario_one_context :
  inventory_calls Scenario.run_a
  = [ add_host "app_web-1";
      set_variable "app_web-1" "ansible_host" (PyStr "web-1");
      set_variable "app_web-1" "ansible_connection" (PyStr "kubernetes");
      set_variable "app_web-1" "ansible_user" PyNone;
      set_variable "app_web-1" "ansible_password" PyNone;
      set_variable "app_web-1" "ansible_kubernetes_port" (PyInt 8443);
      set_variable "app_web-1" "ansible_kubernetes_cluster" PyNone;
      set_variable "app_web-1" "ansible_kube_namespace" (PyStr "ns1");
      set_variable "app_web-1" "ansible_kube_config_file" PyNone;
      set_variable "app_web-1" "ansible_kube_container" (PyStr "app");
      add_group "ns1"; add_child "ns1" "app_web-1";
      add_group "web-1"; add_child "web-1" "app_web-1";
      add_group "app_web"; add_child "app_web" "web-1";
      add_group "web-svc"; add_child "web-svc" "web-1" ].
Proof. reflexivity. Qed.

(** A context that cannot connect after one that could: its namespaces are
    listed through the handle the earlier context left. *)
Example failed_connection_reuses_handle :
  events_of (_populate Scenario.first_fails
               (YMapping (mkConfig None (Some [Scenario.file_ctx;
                                               Scenario.local_ctx]))))
            fresh
  = (load_config (ConfigFile "/etc/kube.conf") None
     :: list_pod "ns2" (inr [Scenario.web_1; Scenario.web_build_1])
     :: container_events "kubernetes" Scenario.file_ctx "ns2" Scenario.web_1
                         (mkContainer "app")
     ++ label_events Scenario.web_1 ("app", "web")%string
     ++ list_endpoints "ns2" (inr [Scenario.web_svc])
     :: endpoint_events Scenario.web_svc
     ++ load_config LocalDefault
          (Some (mkExn ConfigException
                       "Invalid kube-config file. No configuration found."))
     :: display_error "Invalid kube-config file. No configuration found."
     :: list_pod "ns1" (inr [Scenario.web_1; Scenario.web_build_1])
     :: container_events "kubernetes" Scenario.local_ctx "ns1" Scenario.web_1
                         (mkContainer "app")
     ++ label_events Scenario.web_1 ("app", "web")%string
     ++ list_endpoints "ns1" (inr [Scenario.web_svc])
     :: endpoint_events Scenario.web_svc)%list.
Proof. reflexivity. Qed.

(** * The claims *)

Section Claims.

Local Open Scope list_scope.

(** ** Context resolution *)

(** C9. [_connect] takes the first applicable strategy: the local default
    credentials when [local_kube_config] is true; else the file named by
    [kubernetes_config_file] when it is set; else a synthesized bundle whose
    cluster entry is named ["{server}:{port}"] with TLS verification
    switched off, whose context entry binds that cluster, [namespaces[0]]
    and the user ["{username}/{server}:{port}"], and whose user entry
    carries the token. *)
Theorem connect_resolution_order (K : Kubernetes) (ctx : ClusterContext)
        (s : self K) :
  (local_kube_config ctx = Some true ->
   _connect K ctx s = connect_outcome LocalDefault s)
  /\ (forall path,
        truthy_bool (local_kube_config ctx) = false ->
        kubernetes_config_file ctx = Some path -> path <> EmptyString ->
        _connect K ctx s = connect_outcome (ConfigFile path) s)
  /\ (forall ns0 rest,
        truthy_bool (local_kube_config ctx) = false ->
        truthy_str (kubernetes_config_file ctx) = false ->
        namespaces ctx = Some (ns0 :: rest) ->
        let cluster := (pystr (opt_str (server ctx)) ++ ":"
                        ++ pystr (opt_int (port ctx)))%string in
        let user := (pystr (opt_str (username ctx)) ++ "/" ++ cluster)%string in
        exists bundle active,
          _connect K ctx s = connect_outcome (Inline bundle active) s
          /\ KubeConfig.current_context bundle = active
          /\ KubeConfig.clusters bundle
             = [KubeConfig.mkCluster "true" ("https://" ++ cluster) cluster]
          /\ KubeConfig.contexts bundle
             = [KubeConfig.mkCtx cluster ns0 user active]
          /\ KubeConfig.users bundle
             = [KubeConfig.mkUser user (opt_str (token ctx))]).
Proof.
  split; [|split].
  - intros Hl. unfold _connect. rewrite Hl. simpl. apply connect_via.
  - intros path Hl Hf Hne. unfold _connect. rewrite Hl, Hf.
    destruct path as [|a path]; [congruence|]. simpl. apply connect_via.
  - intros ns0 rest Hl Hf Hn. unfold _connect. rewrite Hl, Hf.
    unfold _generate_kubernetes_config. rewrite Hn. simpl.
    eexists; eexists. split; [apply connect_via|]. repeat split.
Qed.

Lemma connect_resolution_order_witness :
  _connect Scenario.reachable Scenario.local_ctx fresh
  = (Ok tt, @with_api Scenario.reachable tt
              (log [load_config LocalDefault None] fresh))
  /\ _connect Scenario.reachable Scenario.file_ctx fresh
     = (Ok tt, @with_api Scenario.reachable tt
                 (log [load_config (ConfigFile "/etc/kube.conf") None] fresh))
  /\ exists bundle active,
       _connect Scenario.reachable Scenario.token_ctx fresh
       = (Ok tt, @with_api Scenario.reachable tt
                   (log [load_config (Inline bundle active) None] fresh))
       /\ KubeConfig.clusters bundle
          = [KubeConfig.mkCluster "true" "https://k8s.example.com:8443"
                                  "k8s.example.com:8443"]
       /\ KubeConfig.contexts bundle
          = [KubeConfig.mkCtx "k8s.example.com:8443" "ns3"
                              "admin/k8s.example.com:8443" active]
       /\ KubeConfig.users bundle
          = [KubeConfig.mkUser "admin/k8s.example.com:8443" (PyStr "s3cr3t")].
Proof.
  split; [|split].
  - apply (connect_resolution_order Scenario.reachable Scenario.local_ctx
                                    fresh).
    reflexivity.
  - apply (proj1 (proj2 (connect_resolution_order
                           Scenario.reachable Scenario.file_ctx fresh))
                 "/etc/kube.conf"%string).
    + reflexivity.
    + reflexivity.
    + discriminate.
  - destruct (proj2 (proj2 (connect_resolution_order
                              Scenario.reachable Scenario.token_ctx fresh))
                    "ns3"%string ["ns4"%string] eq_refl eq_refl eq_refl)
      as (bundle & active & E & _ & C & X & U).
    exists bundle, active. repeat split; assumption.
Defined.

(** ** The endpoint grouper *)

Lemma address_events_targets svc sub :
  flat_map (address_events svc) (addresses sub)
  = map (add_child svc)
        (flat_map (fun a => match target_ref a with
                            | Some r => if contains "Pod" (ref_kind r)
                                        then [ref_name r] else []
                            | None => []
                            end) (addresses sub)).
Proof.
  induction (addresses sub) as [|a l IH]; simpl; [reflexivity|].
  rewrite map_app, <- IH. f_equal.
  unfold address_events. destruct (target_ref a) as [r|]; [|reflexivity].
  destruct (contains "Pod" (ref_kind r)); reflexivity.
Qed.

Lemma endpoint_events_targets e :
  endpoint_events e
  = add_group (service_name e)
    :: map (add_child (service_name e)) (pod_targets e).
Proof.
  unfold endpoint_events, pod_targets. f_equal.
  induction (subsets e) as [|sub l IH]; simpl; [reflexivity|].
  now rewrite map_app, <- IH, address_events_targets.
Qed.

(** C6, as amended. When the endpoints of a namespace are listed,
    [_kube_service_group] returns normally and reports nothing; for each
    endpoint, in order, it creates the group named after it and then adds,
    for every address of every subset, [target_ref.name] as a child exactly
    when the address has a [target_ref] whose kind contains ["Pod"]; the
    other addresses are passed over. *)
Theorem service_group_children (K : Kubernetes) (namespace : string)
        (s : self K) (c : client K) (eps : list Endpoint) :
  api s = Some c ->
  list_namespaced_endpoints K c namespace = inr eps ->
  _kube_service_group K namespace s
  = (Ok tt, log (list_endpoints namespace (inr eps)
                 :: service_group_calls eps) s).
Proof.
  intros Ha He. rewrite (_kube_service_group_listed K namespace c eps s Ha He).
  do 3 f_equal. unfold service_group_calls.
  apply flat_map_ext. intros e. apply endpoint_events_targets.
Qed.

Lemma service_group_children_witness :
  _kube_service_group Scenario.serving "ns1"
                      (@with_api Scenario.serving tt fresh)
  = (Ok tt, log [list_endpoints "ns1" (inr [Scenario.web_svc]);
                 add_group "web-svc"; add_child "web-svc" "web-1"]
                (@with_api Scenario.serving tt fresh)).
Proof.
  apply (service_group_children
           Scenario.serving "ns1"%string (@with_api Scenario.serving tt fresh)
           tt [Scenario.web_svc]);
    reflexivity.
Defined.

(** An address whose [target_ref] has kind ["PodTemplate"], which is not
    ["Pod"], is added as a child all the same. *)
Lemma service_group_kind_is_substring :
  events_of (_kube_service_group Scenario.templated "ns1")
            (@with_api Scenario.templated tt fresh)
  = [list_endpoints "ns1" (inr [Scenario.template_svc]);
     add_group "tpl-svc"; add_child "tpl-svc" "web-template"]
  /\ String.eqb "PodTemplate" "Pod" = false.
Proof. split; reflexivity. Qed.

(** ** Malformed configuration *)

(** C2, as amended. A configuration without a [contexts] key makes
    [parse] report one error and return normally, with no context tried and
    no call on the inventory. [parse] raises only when the loader cannot
    load the file: it then raises [AnsibleParserError] before anything else
    is done; whatever document the loader returns, [parse] returns
    normally. *)
Theorem parse_failures (K : Kubernetes) (path : string) (s : self K) :
  (forall cfg,
     load_from_file K path = inr (YMapping cfg) -> contexts cfg = None ->
     fst (parse K path s) = Ok tt
     /\ events_of (parse K path) s
        = [display_error "'NoneType' object is not iterable"])
  /\ (forall doc, load_from_file K path = inr doc ->
                  fst (parse K path s) = Ok tt)
  /\ (forall e, load_from_file K path = inl e ->
                parse K path s
                = (Raise (mkExn AnsibleParserError (message e)), s)).
Proof.
  assert (Hdoc : forall doc, load_from_file K path = inr doc ->
                             parse K path s = _populate K doc s).
  { intros doc H. unfold parse, bind, try_except, lift. now rewrite H. }
  split; [|split].
  - intros [pl cs] H Hc. simpl in Hc. subst cs.
    unfold events_of. rewrite (Hdoc _ H).
    split; [reflexivity|]. apply skipn_length_app.
  - intros doc H. rewrite (Hdoc _ H).
    destruct (events_of_populate K doc s) as (_ & _ & E & _). exact E.
  - intros e H. unfold parse, bind, try_except, lift. now rewrite H.
Qed.

Lemma parse_failures_witness :
  (fst (parse Scenario.misconfigured "hosts.kube.yaml" fresh) = Ok tt
   /\ events_of (parse Scenario.misconfigured "hosts.kube.yaml") fresh
      = [display_error "'NoneType' object is not iterable"])
  /\ fst (parse Scenario.serving "hosts.kube.yaml" fresh) = Ok tt.
Proof.
  split.
  - apply (proj1 (parse_failures Scenario.misconfigured
                                 "hosts.kube.yaml"%string fresh)
                 (mkConfig (Some "kubernetes"%string) None));
      reflexivity.
  - apply (proj1 (proj2 (parse_failures Scenario.serving
                                        "hosts.kube.yaml"%string fresh))
                 Scenario.two_contexts).
    reflexivity.
Defined.

(** Without a [contexts] key, [parse] does not raise: it returns normally
    after one report. *)
Lemma missing_contexts_is_not_fatal :
  parse Scenario.misconfigured "hosts.kube.yaml" fresh
  = (Ok tt,
     {| api := None; plugin := Some "kubernetes"%string;
        inventory_hostname := None;
        trace := [display_error "'NoneType' object is not iterable"] |}).
Proof. reflexivity. Qed.

(** ** Groups before children *)

(** C10. In every run, a call [add_child(group, child)] comes after a call
    [add_group(group)] for the same group. *)
Theorem add_child_after_add_group (K : Kubernetes) (doc : yaml_doc)
        (s : self K) pre g c post :
  events_of (_populate K doc) s = pre ++ add_child g c :: post ->
  In (add_group g) pre.
Proof.
  intros H. revert g c post H.
  assert (L : locally group_created_before (events_of (_populate K doc) s)).
  { apply populate_locally.
    - apply group_created_before_extensible.
    - apply block_grouped.
    - intros fin F. apply closing_cases; [exact F|].
      intros ns x pre' e post' H. enum H; intros g c He; discriminate. }
  intros g c post H. exact (L pre (add_child g c) post H g c eq_refl).
Qed.

Lemma add_child_after_add_group_witness :
  In (add_group "ns1") (firstn 13 Scenario.run_a).
Proof.
  apply (add_child_after_add_group
           Scenario.serving Scenario.one_context fresh
           (firstn 13 Scenario.run_a) "ns1"%string "app_web-1"%string
           (skipn 14 Scenario.run_a)).
  reflexivity.
Defined.

(** ** Hosts, their variables and their groups *)



(** ** Build pods *)

(** C4. A pod whose name contains ["-build"] is passed over: handling it
    makes no call at all and changes nothing, and in every run each host
    created is that of a container of a listed pod whose name does not
    contain ["-build"]. *)
Theorem build_pods_make_no_host (K : Kubernetes) :
  (forall context namespace pod (s : self K),
     contains "-build" (pod_name pod) = true ->
     populate_pod K context namespace pod s = (Ok tt, s))
  /\ (forall doc (s : self K) pre h post,
        events_of (_populate K doc) s = pre ++ add_host h :: post ->
        exists namespace pods pod c,
          In (list_pod namespace (inr pods)) pre /\ In pod pods
          /\ In c (containers pod)
          /\ h = host_key (container_name c) (pod_name pod)
          /\ contains "-build" (pod_name pod) = false).
Proof.
  split.
  - intros ctx ns pod s H. unfold populate_pod. rewrite H. reflexivity.
  - intros doc s pre h post H.
    destruct (populate_created_by K doc s pre (add_host h) post H h eq_refl)
      as (ctx & ns & pods & pod & c & rest & _ & _ & H3 & H4 & H5 & H6 & H7
          & _).
    exists ns, pods, pod, c. auto.
Qed.

Lemma build_pods_make_no_host_witness :
  populate_pod Scenario.serving Scenario.local_ctx "ns1" Scenario.web_build_1
               fresh
  = (Ok tt, fresh)
  /\ exists namespace pods pod c,
       In (list_pod namespace (inr pods)) (firstn 2 Scenario.run_a)
       /\ In pod pods /\ In c (containers pod)
       /\ "app_web-1"%string = host_key (container_name c) (pod_name pod)
       /\ contains "-build" (pod_name pod) = false.
Proof.
  split.
  - apply (proj1 (build_pods_make_no_host Scenario.serving)). reflexivity.
  - apply (proj2 (build_pods_make_no_host Scenario.serving)
                 Scenario.one_context fresh (firstn 2 Scenario.run_a)
                 "app_web-1"%string (skipn 3 Scenario.run_a)).
    reflexivity.
Defined.

(** ** Label groups *)

(** C5, as amended. For every label [k: v] of every listed pod whose name
    does not contain ["-build"], the run creates the group ["k_v"] and adds
    the pod's name to it, whatever the pod's containers. *)
Theorem label_groups (K : Kubernetes) (doc : yaml_doc) (s : self K)
        pre namespace pods post pod k v :
  events_of (_populate K doc) s
  = pre ++ list_pod namespace (inr pods) :: post ->
  In pod pods -> contains "-build" (pod_name pod) = false ->
  In (k, v) (labels pod) ->
  exists mid rest,
    post = mid ++ add_group (k ++ "_" ++ v)%string
               :: add_child (k ++ "_" ++ v)%string (pod_name pod) :: rest.
Proof.
  intros H Hpod Hb Hkv.
  destruct (populate_followed_by_pods K doc s pre _ post H namespace pods
                                      eq_refl)
    as (ctx & rest & _ & _ & ->).
  apply in_split in Hpod. destruct Hpod as (l1 & l2 & ->).
  apply in_split in Hkv. destruct Hkv as (m1 & m2 & Hl).
  rewrite flat_map_app. simpl.
  unfold pod_events at 2. unfold is_build_pod. rewrite Hb, Hl.
  rewrite flat_map_app. simpl.
  exists (flat_map (pod_events (doc_plugin doc) ctx namespace) l1
          ++ flat_map (container_events (doc_plugin doc) ctx namespace pod)
                      (containers pod)
          ++ flat_map (label_events pod) m1).
  eexists. rewrite <- !app_assoc. simpl. reflexivity.
Qed.

Lemma label_groups_witness :
  exists mid rest,
    skipn 2 Scenario.run_a
    = mid ++ add_group "app_web" :: add_child "app_web" "web-1" :: rest.
Proof.
  apply (label_groups Scenario.serving Scenario.one_context fresh
                      (firstn 1 Scenario.run_a) "ns1"%string
                      [Scenario.web_1; Scenario.web_build_1]
                      (skipn 2 Scenario.run_a) Scenario.web_1
                      "app"%string "web"%string).
  - reflexivity.
  - now left.
  - reflexivity.
  - now left.
Defined.

(** The build pod ["web-build-1"] is listed and carries a label, and the
    run creates no group for the label. *)
Lemma build_pod_labels_make_no_group :
  In (list_pod "ns1" (inr [Scenario.web_1; Scenario.web_build_1]))
     Scenario.run_a
  /\ In ("openshift.io/build.name", "web-1")%string
        (labels Scenario.web_build_1)
  /\ groups_added Scenario.run_a
     = ["ns1"; "web-1"; "app_web"; "web-svc"]%string
  /\ children_added Scenario.run_a
     = [("ns1", "app_web-1"); ("web-1", "app_web-1"); ("app_web", "web-1");
        ("web-svc", "web-1")]%string.
Proof.
  split; [right; left; reflexivity|]. split; [left; reflexivity|].
  split; reflexivity.
Qed.

End Claims.

(** * More of the module *)

(** ** Substrings and suffixes *)

Lemma prefix_iff (sub s : string) :
  prefix sub s = true <-> exists b, s = (sub ++ b)%string.
Proof.
  revert s. induction sub as [|a sub IH]; intros s.
  - split; [intros _; exists s; reflexivity|]. intros _. now destruct s.
  - destruct s as [|c s]; cbn [prefix].
    + split; [discriminate|]. intros [b H]. discriminate.
    + destruct (ascii_dec a c) as [->|Hn].
      * rewrite IH. split; intros [b H]; exists b.
        -- cbn [append]. now rewrite H.
        -- cbn [append] in H. now injection H.
      * split; [discriminate|]. intros [b H]. cbn [append] in H.
        injection H as H _. congruence.
Qed.

Lemma contains_cons (sub : string) (a : ascii) (s : string) :
  contains sub (String a s)
  = if prefix sub (String a s) then true else contains sub s.
Proof. reflexivity. Qed.

(** [contains] is Python's [in] on strings. *)
Lemma contains_iff (sub s : string) :
  contains sub s = true <-> exists a b, s = (a ++ sub ++ b)%string.
Proof.
  induction s as [|c s IH].
  - cbn [contains]. destruct (prefix sub EmptyString) eqn:E.
    + apply prefix_iff in E. destruct E as [b E].
      split; [intros _; exists EmptyString, b; exact E | reflexivity].
    + split; [discriminate|]. intros (a & b & H).
      destruct a; [|discriminate]. cbn [append] in H.
      assert (P : prefix sub EmptyString = true)
        by (apply prefix_iff; eauto).
      congruence.
  - rewrite contains_cons. destruct (prefix sub (String c s)) eqn:E.
    + apply prefix_iff in E. destruct E as [b E].
      split; [intros _; exists EmptyString, b; exact E | reflexivity].
    + rewrite IH. split; intros (a & b & H).
      * exists (String c a), b. cbn [append]. now rewrite H.
      * destruct a as [|c' a]; cbn [append] in H.
        -- assert (P : prefix sub (String c s) = true)
             by (apply prefix_iff; eauto).
           congruence.
        -- injection H as _ H. eauto.
Qed.

Lemma endswith_unfold (s suffix : string) :
  endswith s suffix
  = if String.eqb s suffix then true
    else match s with
         | EmptyString => false
         | String _ s' => endswith s' suffix
         end.
Proof. destruct s; reflexivity. Qed.

Lemma endswith_iff (s suffix : string) :
  endswith s suffix = true <-> exists p, s = (p ++ suffix)%string.
Proof.
  induction s as [|a s IH]; rewrite endswith_unfold.
  - destruct (String.eqb EmptyString suffix) eqn:E.
    + apply String.eqb_eq in E.
      split; [intros _; exists EmptyString; exact E | reflexivity].
    + split; [discriminate|]. intros [p H].
      destruct p; [|discriminate]. cbn [append] in H.
      apply String.eqb_neq in E. congruence.
  - destruct (String.eqb (String a s) suffix) eqn:E.
    + apply String.eqb_eq in E.
      split; [intros _; exists EmptyString; exact E | reflexivity].
    + rewrite IH. split; intros [p H].
      * exists (String a p). cbn [append]. now rewrite H.
      * destruct p as [|b p]; cbn [append] in H.
        -- apply String.eqb_neq in E. congruence.
        -- injection H as _ H. eauto.
Qed.

(** ** Which files the plugin takes *)

(** X1. [verify_file] accepts a path exactly when the base class accepts it
    and the path ends in [.kube.yaml] or [.kube.yml]. *)
Theorem verify_file_accepts (super_verify_file : string -> bool)
        (path : string) :
  verify_file super_verify_file path = true
  <-> super_verify_file path = true
      /\ exists stem, path = (stem ++ ".kube.yaml")%string
                      \/ path = (stem ++ ".kube.yml")%string.
Proof.
  unfold verify_file. destruct (super_verify_file path).
  2:{ split; [discriminate | intros [H _]; discriminate]. }
  destruct (endswith path ".kube.yaml") eqn:E1.
  { apply endswith_iff in E1. destruct E1 as [p E1].
    split; [intros _; split; eauto | reflexivity]. }
  destruct (endswith path ".kube.yml") eqn:E2.
  { apply endswith_iff in E2. destruct E2 as [p E2].
    split; [intros _; split; eauto | reflexivity]. }
  split; [discriminate|]. intros [_ [stem [H|H]]].
  - assert (P : endswith path ".kube.yaml" = true)
      by (apply endswith_iff; eauto).
    congruence.
  - assert (P : endswith path ".kube.yml" = true)
      by (apply endswith_iff; eauto).
    congruence.
Qed.

(** ** Build pods by name *)

Lemma events_of_trace {K : Kubernetes} (m : M K unit) (s s' : self K) r d :
  m s = (r, s') -> trace s' = (trace s ++ d)%list -> events_of m s = d.
Proof.
  intros E T. unfold events_of. rewrite E. simpl. rewrite T.
  apply skipn_length_app.
Qed.

(** X2. Handling a listed pod makes no call at all exactly when its name
    has ["-build"] somewhere inside, or it has neither containers nor
    labels. *)
Theorem pod_makes_no_call (K : Kubernetes) (context : ClusterContext)
        (namespace : string) (pod : Pod) (s : self K) (pl : string) :
  plugin s = Some pl ->
  (events_of (populate_pod K context namespace pod) s = []
   <-> (exists a b, pod_name pod = (a ++ "-build" ++ b)%string)
       \/ (containers pod = [] /\ labels pod = [])).
Proof.
  intros Hp.
  destruct (populate_pod_steps K context namespace pod pl s Hp)
    as (s' & E & _ & _ & T).
  rewrite (events_of_trace _ _ _ _ _ E T).
  unfold pod_events, is_build_pod.
  destruct (contains "-build" (pod_name pod)) eqn:C.
  - split; [intros _; left; now apply contains_iff | reflexivity].
  - split.
    + intros H. right. apply app_eq_nil in H. destruct H as [Hc Hl].
      split.
      * destruct (containers pod); [reflexivity | discriminate].
      * destruct (labels pod); [reflexivity | discriminate].
    + intros [H|[-> ->]]; [|reflexivity].
      apply contains_iff in H. congruence.
Qed.

Lemma pod_makes_no_call_witness :
  events_of (populate_pod Scenario.serving Scenario.local_ctx "ns1"
                          Scenario.web_build_1)
            (snd (set_plugin Scenario.serving "kubernetes" fresh))
  = [].
Proof.
  apply (pod_makes_no_call Scenario.serving Scenario.local_ctx "ns1"%string
                           Scenario.web_build_1 _ "kubernetes"%string).
  - reflexivity.
  - left. exists "web"%string, "-1"%string. reflexivity.
Defined.

(** ** The module search path *)

Lemma remove_path_head (x y : string) (l : list string) :
  remove_path (y :: l) x
  = if String.eqb y x then l else y :: remove_path l x.
Proof.
  unfold remove_path. cbn [list_index].
  destruct (String.eqb y x); [reflexivity|].
  destruct (list_index x l) as [i|]; [|reflexivity].
  cbn [del_index]. destruct (del_index i l); reflexivity.
Qed.

(** A pass takes out the first occurrence of the path, if there is one. *)
Lemma remove_path_cases (l : list string) (x : string) :
  (~ In x l /\ remove_path l x = l)
  \/ (exists l1 l2, l = (l1 ++ x :: l2)%list /\ ~ In x l1
                    /\ remove_path l x = (l1 ++ l2)%list).
Proof.
  induction l as [|y l IH].
  - left. split; [tauto | reflexivity].
  - rewrite remove_path_head. destruct (String.eqb y x) eqn:E.
    + apply String.eqb_eq in E. subst y.
      right. exists [], l. repeat split. tauto.
    + apply String.eqb_neq in E.
      destruct IH as [[Hn ->]|(l1 & l2 & -> & Hn & ->)].
      * left. split; [|reflexivity]. intros [H|H]; tauto.
      * right. exists (y :: l1), l2. repeat split.
        intros [H|H]; tauto.
Qed.

Lemma remove_path_count (l : list string) (x y : string) :
  count_occ string_dec (remove_path l x) y
  = if string_dec x y then pred (count_occ string_dec l y)
    else count_occ string_dec l y.
Proof.
  destruct (remove_path_cases l x) as [[Hn ->]|(l1 & l2 & -> & Hn & ->)].
  - destruct (string_dec x y) as [<-|]; [|reflexivity].
    apply (count_occ_not_In string_dec) in Hn. now rewrite Hn.
  - rewrite !count_occ_app. cbn [count_occ].
    destruct (string_dec x y) as [<-|]; [|reflexivity].
    apply (count_occ_not_In string_dec) in Hn. rewrite Hn. reflexivity.
Qed.

Lemma remove_path_filter (f : string -> bool) (l : list string) (x : string) :
  f x = false -> filter f (remove_path l x) = filter f l.
Proof.
  intros Hx.
  destruct (remove_path_cases l x) as [[_ ->]|(l1 & l2 & -> & _ & ->)];
    [reflexivity|].
  rewrite !filter_app. cbn [filter]. now rewrite Hx.
Qed.

(** X3. The cleanup of the module search path takes out one occurrence of
    each of the three paths (the working directory, the empty path, the
    directory of the file), as many times as the path is among the three,
    and no other entry: an entry listed more often stays on the path, and
    when no entry is listed twice none of the three is left. *)
Theorem clean_sys_path_count (cwd here : string) (sys_path : list string) :
  (forall p,
     count_occ string_dec (clean_sys_path cwd here sys_path) p
     = count_occ string_dec sys_path p
       - count_occ string_dec [cwd; EmptyString; here] p)
  /\ (NoDup sys_path ->
      forall p, In p [cwd; EmptyString; here] ->
                ~ In p (clean_sys_path cwd here sys_path)).
Proof.
  assert (C : forall p,
             count_occ string_dec (clean_sys_path cwd here sys_path) p
             = count_occ string_dec sys_path p
               - count_occ string_dec [cwd; EmptyString; here] p).
  { intros p. unfold clean_sys_path. cbn [fold_left count_occ].
    rewrite !remove_path_count.
    destruct (string_dec here p), (string_dec EmptyString p),
      (string_dec cwd p); lia. }
  split; [exact C|].
  intros Hn p Hp. apply (count_occ_not_In string_dec). rewrite C.
  assert (H1 : count_occ string_dec sys_path p <= 1)
    by (apply (proj1 (NoDup_count_occ string_dec sys_path) Hn)).
  assert (H2 : count_occ string_dec [cwd; EmptyString; here] p > 0)
    by (apply (count_occ_In string_dec); exact Hp).
  lia.
Qed.

Lemma clean_sys_path_count_witness :
  ~ In "/usr/lib/ansible/plugins/inventory"%string
       (clean_sys_path "/home/user" "/usr/lib/ansible/plugins/inventory"
          ["/usr/lib/ansible/plugins/inventory"; "/usr/lib/python2.7";
           EmptyString]%string).
Proof.
  apply (proj2 (clean_sys_path_count
                  "/home/user" "/usr/lib/ansible/plugins/inventory"
                  ["/usr/lib/ansible/plugins/inventory";
                   "/usr/lib/python2.7"; EmptyString]%string)).
  - repeat constructor; simpl; intuition discriminate.
  - right. right. left. reflexivity.
Defined.

(** X4. The cleanup leaves every other entry of the module search path
    where it was: any selection of entries that takes none of the three
    paths reads the same before and after. *)
Theorem clean_sys_path_keeps_others (cwd here : string)
        (sys_path : list string) (f : string -> bool) :
  f cwd = false -> f EmptyString = false -> f here = false ->
  filter f (clean_sys_path cwd here sys_path) = filter f sys_path.
Proof.
  intros H1 H2 H3. unfold clean_sys_path. cbn [fold_left].
  now rewrite !remove_path_filter.
Qed.

Lemma clean_sys_path_keeps_others_witness :
  filter (fun p => prefix "/usr" p)
         (clean_sys_path "/home/user" "/opt/inventory"
            ["/opt/inventory"; "/usr/lib/python2.7"; EmptyString;
             "/usr/lib/site-packages"]%string)
  = ["/usr/lib/python2.7"; "/usr/lib/site-packages"]%string.
Proof.
  apply (clean_sys_path_keeps_others
           "/home/user" "/opt/inventory"
           ["/opt/inventory"; "/usr/lib/python2.7"; EmptyString;
            "/usr/lib/site-packages"]%string
           (fun p => prefix "/usr" p));
    reflexivity.
Defined.

(** ** The calls of a run as lists *)

Section RunCalls.

Variable K : Kubernetes.
Local Open Scope list_scope.

Lemma runs_events (m : M K unit) (s : self K) d r a' :
  runs m s d r a' -> events_of m s = d.
Proof.
  intros (s' & E & T & _). exact (events_of_trace m s s' _ d E T).
Qed.

Lemma connect_outcome_runs src (s : self K) (o : result unit * self K) :
  o = connect_outcome src s ->
  let cc := match kube_load K src with
            | inr c => ([load_config src None], Some c)
            | inl e => ([load_config src (Some e); display_error (message e)],
                        api s)
            end in
  (exists s', o = (Ok tt, s') /\ trace s' = trace s ++ fst cc
              /\ api s' = snd cc /\ plugin s' = plugin s)
  /\ inventory_hostname (snd o) = inventory_hostname s.
Proof.
  intros ->. unfold connect_outcome.
  destruct (kube_load K src) as [e|c]; (split; [eexists|]); repeat split.
Qed.

Lemma _connect_runs ctx (s : self K) :
  runs (_connect K ctx) s (fst (connect_calls K (api s) ctx)) None
       (snd (connect_calls K (api s) ctx))
  /\ inventory_hostname (snd (_connect K ctx s)) = inventory_hostname s.
Proof.
  unfold runs, connect_calls, credentials, _connect. cbn [result_of].
  destruct (truthy_bool (local_kube_config ctx)).
  { apply connect_outcome_runs, connect_via. }
  destruct (truthy_str (kubernetes_config_file ctx)).
  { destruct (kubernetes_config_file ctx);
      apply connect_outcome_runs, connect_via. }
  destruct (_generate_kubernetes_config ctx) as [e|[cfg active]].
  - split; [eexists|]; repeat split.
  - apply connect_outcome_runs. exact (connect_via K (Inline cfg active) s).
Qed.

Lemma _kube_service_group_calls ns (s : self K) :
  _kube_service_group K ns s = (Ok tt, log (service_calls K (api s) ns) s).
Proof.
  unfold service_calls. destruct (api s) as [c|] eqn:Ha.
  - destruct (list_namespaced_endpoints K c ns) as [e|eps] eqn:He.
    + exact (_kube_service_group_failed K ns c e s Ha He).
    + exact (_kube_service_group_listed K ns c eps s Ha He).
  - exact (_kube_service_group_no_api K ns s Ha).
Qed.

Lemma populate_namespace_runs pl ctx ns (s : self K) :
  plugin s = Some pl ->
  runs (populate_namespace K ctx ns) s
       (fst (namespace_calls K pl ctx (api s) ns))
       (snd (namespace_calls K pl ctx (api s) ns)) (api s).
Proof.
  intros Hp.
  unfold runs, namespace_calls, populate_namespace, getattr,
    call_list_namespaced_pod, bind, emit.
  destruct (api s) as [c|] eqn:Ha.
  2:{ exists s. simpl. rewrite app_nil_r. auto. }
  destruct (list_namespaced_pod K c ns) as [e|pods] eqn:Hl; simpl.
  { eexists. repeat split. exact Ha. }
  destruct (for_steps K (populate_pod K ctx ns) (pod_events pl ctx ns) pl pods)
    with (s := log [list_pod ns (inr pods)] s) as (s1 & E1 & A1 & P1 & T1).
  { intros x t _ Ht. now apply populate_pod_steps. }
  { exact Hp. }
  rewrite E1, _kube_service_group_calls. simpl in A1, P1, T1.
  eexists. split; [reflexivity|]. simpl.
  rewrite T1, A1, Ha, <- !app_assoc. repeat split; congruence.
Qed.

Lemma for_runs {A} (body : A -> M K unit)
      (f : A -> list event * option exn) pl a l :
  (forall x s, In x l -> plugin s = Some pl -> api s = a ->
               runs (body x) s (fst (f x)) (snd (f x)) a) ->
  forall s, plugin s = Some pl -> api s = a ->
            runs (for_ K l body) s (fst (loop_calls f l))
                 (snd (loop_calls f l)) a.
Proof.
  induction l as [|x l IH]; intros H s Hp Ha.
  - exists s. simpl. rewrite app_nil_r. auto.
  - destruct (H x s (or_introl eq_refl) Hp Ha) as (s1 & E1 & T1 & A1 & P1).
    cbn [for_ loop_calls]. unfold runs, bind. rewrite E1.
    destruct (f x) as [d [e|]]; cbn [fst snd result_of] in *.
    + exists s1. auto.
    + destruct (IH (fun y t Hy => H y t (or_intror Hy)) s1)
        as (s2 & E2 & T2 & A2 & P2); [congruence | exact A1 |].
      destruct (loop_calls f l) as [d' r]. cbn [fst snd] in *.
      exists s2. repeat split; try congruence.
      rewrite T2, T1, app_assoc. reflexivity.
Qed.

Lemma populate_context_runs pl ctx (s : self K) :
  plugin s = Some pl ->
  runs (populate_context K ctx) s
       (fst (fst (context_calls K pl (api s) ctx)))
       (snd (fst (context_calls K pl (api s) ctx)))
       (snd (context_calls K pl (api s) ctx)).
Proof.
  intros Hp. unfold populate_context, context_calls.
  destruct (_connect_runs ctx s) as [(s1 & E1 & T1 & A1 & P1) _].
  destruct (connect_calls K (api s) ctx) as [d a']. cbn [fst snd] in *.
  unfold runs, bind. rewrite E1. cbn [result_of].
  unfold iterate. destruct (namespaces ctx) as [nss|].
  - unfold ret.
    destruct (for_runs (populate_namespace K ctx)
                (namespace_calls K pl ctx a') pl a' nss) with (s := s1)
      as (s2 & E2 & T2 & A2 & P2).
    { intros ns t _ Ht <-. now apply populate_namespace_runs. }
    { congruence. }
    { exact A1. }
    destruct (loop_calls (namespace_calls K pl ctx a') nss) as [d' r].
    cbn [fst snd] in *. exists s2. repeat split; try congruence.
    rewrite T2, T1, app_assoc. reflexivity.
  - unfold raise. exists s1. cbn [fst snd result_of]. auto.
Qed.

Lemma contexts_runs pl cs (s : self K) :
  plugin s = Some pl ->
  runs (for_ K cs (populate_context K)) s
       (fst (fst (contexts_calls K pl (api s) cs)))
       (snd (fst (contexts_calls K pl (api s) cs)))
       (snd (contexts_calls K pl (api s) cs)).
Proof.
  revert s. induction cs as [|ctx cs IH]; intros s Hp.
  - exists s. simpl. rewrite app_nil_r. auto.
  - destruct (populate_context_runs pl ctx s Hp)
      as (s1 & E1 & T1 & A1 & P1).
    cbn [for_ contexts_calls]. unfold runs, bind. rewrite E1.
    destruct (context_calls K pl (api s) ctx) as [[d [e|]] a'];
      cbn [fst snd result_of] in *.
    + exists s1. auto.
    + destruct (IH s1) as (s2 & E2 & T2 & A2 & P2); [congruence|].
      rewrite A1 in *.
      destruct (contexts_calls K pl a' cs) as [[d' r] a''].
      cbn [fst snd] in *. exists s2. repeat split; try congruence.
      rewrite T2, T1, app_assoc. reflexivity.
Qed.

(** The calls of a run are those of [run_calls]: they depend on the object
    only through its handle. *)
Lemma populate_calls doc (s : self K) :
  events_of (_populate K doc) s = run_calls K doc (api s).
Proof.
  destruct doc as [[pl [cs|]]|ty]; try reflexivity;
    [|unfold events_of; simpl; apply skipn_length_app
     |unfold events_of; simpl; apply skipn_length_app].
  unfold events_of. rewrite populate_unfold. unfold run_calls.
  cbn [contexts].
  set (p := doc_plugin (YMapping {| plugin_name := pl; contexts := Some cs |})).
  destruct (contexts_runs p cs (snd (set_plugin K p s)) eq_refl)
    as (s1 & E1 & T1 & _).
  rewrite E1. change (api (snd (set_plugin K p s))) with (api s) in *.
  change (trace (snd (set_plugin K p s))) with (trace s) in T1.
  destruct (contexts_calls K p (api s) cs) as [[d [e|]] a'];
    cbn [fst snd result_of] in *; simpl; rewrite T1, <- ?app_assoc;
    apply skipn_length_app.
Qed.

Lemma loop_calls_locally {A} (Q : list event -> event -> list event -> Prop)
      (f : A -> list event * option exn) l :
  extensible Q -> (forall x, In x l -> locally Q (fst (f x))) ->
  locally Q (fst (loop_calls f l)).
Proof.
  intros HQ. induction l as [|x l IH]; intros H; cbn [loop_calls].
  - apply locally_nil.
  - pose proof (H x (or_introl eq_refl)) as Hx.
    destruct (f x) as [d [e|]]; cbn [fst] in *; [exact Hx|].
    specialize (IH (fun y Hy => H y (or_intror Hy))).
    destruct (loop_calls f l) as [d' r]. cbn [fst] in *.
    now apply locally_app.
Qed.

Lemma contexts_calls_locally
      (Q : list event -> event -> list event -> Prop) pl cs :
  extensible Q ->
  (forall a ctx, In ctx cs -> locally Q (fst (connect_calls K a ctx))) ->
  (forall a ctx ns, In ctx cs -> In ns (context_namespaces ctx) ->
                    locally Q (fst (namespace_calls K pl ctx a ns))) ->
  forall a, locally Q (fst (fst (contexts_calls K pl a cs))).
Proof.
  intros HQ. induction cs as [|ctx cs IH]; intros Hc Hn a;
    cbn [contexts_calls].
  - apply locally_nil.
  - assert (Hctx : locally Q (fst (fst (context_calls K pl a ctx)))).
    { unfold context_calls.
      pose proof (Hc a ctx (or_introl eq_refl)) as H1.
      destruct (connect_calls K a ctx) as [d a']. cbn [fst] in H1.
      pose proof (fun ns => Hn a' ctx ns (or_introl eq_refl)) as H2.
      unfold context_namespaces in H2.
      destruct (namespaces ctx) as [nss|]; [|exact H1].
      pose proof (loop_calls_locally Q (namespace_calls K pl ctx a') nss
                    HQ H2) as H3.
      destruct (loop_calls (namespace_calls K pl ctx a') nss) as [d' r].
      cbn [fst] in *. now apply locally_app. }
    destruct (context_calls K pl a ctx) as [[d [e|]] a'];
      cbn [fst] in *; [exact Hctx|].
    specialize (IH (fun b c Hin => Hc b c (or_intror Hin))
                   (fun b c ns Hin => Hn b c ns (or_intror Hin)) a').
    destruct (contexts_calls K pl a' cs) as [[d' r] a'']. cbn [fst] in *.
    now apply locally_app.
Qed.

(** A property of every call of a run in its context holds when it holds
    within the calls of each connection, within those of each namespace,
    and for a report. *)
Lemma populate_calls_locally
      (Q : list event -> event -> list event -> Prop) doc (s : self K) :
  extensible Q ->
  (forall a ctx, In ctx (doc_contexts doc) ->
                 locally Q (fst (connect_calls K a ctx))) ->
  (forall a ctx ns,
     In ctx (doc_contexts doc) -> In ns (context_namespaces ctx) ->
     locally Q (fst (namespace_calls K (doc_plugin doc) ctx a ns))) ->
  (forall m, locally Q [display_error m]) ->
  locally Q (events_of (_populate K doc) s).
Proof.
  intros HQ Hc Hn Hr. rewrite populate_calls. unfold run_calls.
  destruct doc as [cfg|ty]; [|apply Hr].
  cbn [doc_contexts] in Hc, Hn.
  destruct (contexts cfg) as [cs|]; [|apply Hr].
  pose proof (contexts_calls_locally Q (doc_plugin (YMapping cfg)) cs HQ Hc Hn
                                     (api s)) as H.
  destruct (contexts_calls K (doc_plugin (YMapping cfg)) (api s) cs)
    as [[d [e|]] a']; cbn [fst] in H; [|exact H].
  apply locally_app; auto.
Qed.

End RunCalls.

Section RunOrder.

Variable K : Kubernetes.
Local Open Scope list_scope.

Lemma service_calls_shape c ns :
  exists tl,
    service_calls K (Some c) ns
    = list_endpoints ns (list_namespaced_endpoints K c ns) :: tl
    /\ Forall (fun e => is_group_call e = true \/ exists m, e = display_error m)
              tl.
Proof.
  unfold service_calls.
  destruct (list_namespaced_endpoints K c ns) as [e|eps].
  - eexists. split; [reflexivity|].
    constructor; [right; eauto | constructor].
  - eexists. split; [reflexivity|].
    eapply Forall_impl; [|apply endpoints_events_groups]. auto.
Qed.

Lemma namespace_calls_cases pl ctx a ns :
  (a = None /\ fst (namespace_calls K pl ctx a ns) = [])
  \/ (exists c e, a = Some c /\ list_namespaced_pod K c ns = inl e
                  /\ fst (namespace_calls K pl ctx a ns)
                     = [list_pod ns (inl e)])
  \/ (exists c pods,
        a = Some c /\ list_namespaced_pod K c ns = inr pods
        /\ fst (namespace_calls K pl ctx a ns)
           = list_pod ns (inr pods)
             :: flat_map (pod_events pl ctx ns) pods
                ++ service_calls K (Some c) ns).
Proof.
  unfold namespace_calls. destruct a as [c|]; [|now left].
  right. destruct (list_namespaced_pod K c ns) as [e|pods] eqn:E.
  - left. now exists c, e.
  - right. now exists c, pods.
Qed.

Lemma connect_calls_shape a ctx :
  Forall (fun e => (exists src r, e = load_config src r
                                  /\ credentials ctx = inr src)
                   \/ exists m, e = display_error m)
         (fst (connect_calls K a ctx)).
Proof.
  unfold connect_calls. destruct (credentials ctx) as [e|src].
  - constructor; [right; eauto | constructor].
  - destruct (kube_load K src) as [e|c]; cbn [fst].
    + constructor; [left; eauto|]. constructor; [right; eauto|constructor].
    + constructor; [left; eauto | constructor].
Qed.

Lemma locally_In {E} (P : E -> Prop) (d : list E) :
  locally (fun _ e _ => P e) d -> forall e, In e d -> P e.
Proof.
  intros H e Hin. apply in_split in Hin. destruct Hin as (l1 & l2 & ->).
  exact (H l1 e l2 eq_refl).
Qed.

Lemma service_calls_no_pod_listing c ns :
  Forall (fun e => forall ns' r, e <> list_pod ns' r)
         (service_calls K (Some c) ns).
Proof.
  destruct (service_calls_shape c ns) as (tl & -> & F).
  constructor; [discriminate|].
  eapply Forall_impl; [|exact F].
  intros e [He|(m & ->)] ns' r; [|discriminate].
  intros ->. discriminate.
Qed.

Lemma inventory_no_pod_listing d :
  Forall (fun e => is_inventory_call e = true) d ->
  Forall (fun e => forall ns' r, e <> list_pod ns' r) d.
Proof.
  apply Forall_impl. intros e He ns' r ->. discriminate.
Qed.

Lemma no_pod_listing_namespaces d :
  Forall (fun e => forall ns r, e <> list_pod ns r) d ->
  pod_listing_namespaces d = [].
Proof.
  induction 1 as [|e d He _ IH]; [reflexivity|].
  unfold pod_listing_namespaces in *. cbn [flat_map]. rewrite IH.
  destruct e; try reflexivity. now destruct (He namespace r).
Qed.

Lemma connect_calls_no_pod_listing a ctx :
  pod_listing_namespaces (fst (connect_calls K a ctx)) = [].
Proof.
  apply no_pod_listing_namespaces.
  eapply Forall_impl; [|apply connect_calls_shape].
  intros e [(src & r & -> & _)|(m & ->)] ns r'; discriminate.
Qed.

Lemma namespace_calls_listing pl ctx a ns :
  pod_listing_namespaces (fst (namespace_calls K pl ctx a ns)) = [ns]
  \/ (pod_listing_namespaces (fst (namespace_calls K pl ctx a ns)) = []
      /\ exists e, snd (namespace_calls K pl ctx a ns) = Some e).
Proof.
  unfold namespace_calls.
  destruct a as [c|];
    [|right; split; [reflexivity | eexists; reflexivity]].
  destruct (list_namespaced_pod K c ns) as [e|pods]; [now left|].
  left. cbn [fst]. unfold pod_listing_namespaces.
  rewrite flat_map_app. cbn [flat_map].
  fold (pod_listing_namespaces (flat_map (pod_events pl ctx ns) pods)).
  fold (pod_listing_namespaces (service_calls K (Some c) ns)).
  rewrite (no_pod_listing_namespaces _
             (inventory_no_pod_listing _
                (pods_events_inventory pl ctx ns pods))).
  rewrite (no_pod_listing_namespaces _ (service_calls_no_pod_listing c ns)).
  reflexivity.
Qed.

Lemma namespaces_loop_order pl ctx a nss :
  exists rest,
    nss = pod_listing_namespaces
            (fst (loop_calls (namespace_calls K pl ctx a) nss)) ++ rest
    /\ (snd (loop_calls (namespace_calls K pl ctx a) nss) = None ->
        rest = []).
Proof.
  induction nss as [|ns nss IH]; cbn [loop_calls].
  - exists []. auto.
  - pose proof (namespace_calls_listing pl ctx a ns) as Hl.
    destruct (namespace_calls K pl ctx a ns) as [d [e|]]; cbn [fst snd] in *.
    + destruct Hl as [->|[-> _]].
      * exists nss. split; [reflexivity | discriminate].
      * exists (ns :: nss). split; [reflexivity | discriminate].
    + destruct Hl as [Hl|[_ [e He]]]; [|discriminate].
      destruct IH as (rest & Hn & Hr).
      destruct (loop_calls (namespace_calls K pl ctx a) nss) as [d' r].
      cbn [fst snd] in *. exists rest. split; [|exact Hr].
      unfold pod_listing_namespaces in *.
      rewrite flat_map_app, Hl. cbn [app]. now rewrite Hn at 1.
Qed.

Lemma contexts_loop_order pl cs a :
  exists rest,
    flat_map context_namespaces cs
    = pod_listing_namespaces (fst (fst (contexts_calls K pl a cs))) ++ rest
    /\ (snd (fst (contexts_calls K pl a cs)) = None -> rest = []).
Proof.
  revert a. induction cs as [|ctx cs IH]; intros a; cbn [contexts_calls].
  - exists []. auto.
  - assert (Hctx : exists rest,
               context_namespaces ctx
               = pod_listing_namespaces
                   (fst (fst (context_calls K pl a ctx))) ++ rest
               /\ (snd (fst (context_calls K pl a ctx)) = None -> rest = [])).
    { unfold context_calls, context_namespaces.
      pose proof (connect_calls_no_pod_listing a ctx) as Hc.
      destruct (connect_calls K a ctx) as [d a']. cbn [fst] in Hc.
      destruct (namespaces ctx) as [nss|].
      - destruct (namespaces_loop_order pl ctx a' nss) as (rest & Hn & Hr).
        destruct (loop_calls (namespace_calls K pl ctx a') nss) as [d' r].
        cbn [fst snd] in *. exists rest. split; [|exact Hr].
        unfold pod_listing_namespaces in *. now rewrite flat_map_app, Hc.
      - exists []. cbn [fst snd]. rewrite Hc. split; [reflexivity|].
        discriminate. }
    destruct Hctx as (rest1 & H1 & R1).
    destruct (context_calls K pl a ctx) as [[d [e|]] a']; cbn [fst snd] in *.
    + exists (rest1 ++ flat_map context_namespaces cs).
      cbn [flat_map]. rewrite H1 at 1. rewrite app_assoc.
      split; [reflexivity | discriminate].
    + rewrite (R1 eq_refl), app_nil_r in H1.
      destruct (IH a') as (rest & Hn & Hr).
      destruct (contexts_calls K pl a' cs) as [[d' r] a'']. cbn [fst snd] in *.
      exists rest. split; [|exact Hr].
      cbn [flat_map]. unfold pod_listing_namespaces in *.
      rewrite flat_map_app, <- app_assoc, <- Hn, <- H1. reflexivity.
Qed.

End RunOrder.

(** ** What a run does, and in which order *)

Section RunProperties.

Local Open Scope list_scope.

(** X5. A run touches the inventory only after a pod listing has
    succeeded: every call on the inventory has a successful pod listing
    before it, so a run in which none succeeds (no connection, every listing
    refused) leaves the inventory as it was. *)
Theorem inventory_needs_a_pod_listing (K : Kubernetes) (doc : yaml_doc)
        (s : self K) :
  (forall pre e post,
     events_of (_populate K doc) s = pre ++ e :: post ->
     is_inventory_call e = true ->
     exists namespace pods, In (list_pod namespace (inr pods)) pre)
  /\ ((forall namespace pods,
         ~ In (list_pod namespace (inr pods)) (events_of (_populate K doc) s))
      -> inventory_calls (events_of (_populate K doc) s) = []).
Proof.
  assert (L : locally (fun pre e _ =>
                         is_inventory_call e = true ->
                         exists ns pods, In (list_pod ns (inr pods)) pre)
                      (events_of (_populate K doc) s)).
  { apply populate_calls_locally.
    - intros a0 b0 pre e post H He. destruct (H He) as (ns & pods & Hin).
      exists ns, pods. apply in_or_app. now right.
    - intros a ctx _.
      eapply locally_Forall; [apply connect_calls_shape|].
      intros pre e post [(src & r & -> & _)|(m & ->)] He; discriminate.
    - intros a ctx ns _ _.
      destruct (namespace_calls_cases K (doc_plugin doc) ctx a ns)
        as [[_ ->]|[(c & e & _ & _ & ->)|(c & pods & _ & _ & ->)]].
      + apply locally_nil.
      + intros pre e' post H. enum H. discriminate.
      + apply locally_cons with (Q' := fun _ _ _ => True).
        * discriminate.
        * intros pre e post _ _ _. exists ns, pods. now left.
        * intros pre e post _. exact I.
    - intros m pre e post H. enum H. discriminate. }
  split.
  - intros pre e post H. exact (L pre e post H).
  - intros Hno. unfold inventory_calls.
    destruct (filter is_inventory_call (events_of (_populate K doc) s))
      as [|e l] eqn:F; [reflexivity|].
    assert (Hin : In e (filter is_inventory_call
                               (events_of (_populate K doc) s)))
      by (rewrite F; now left).
    apply filter_In in Hin. destruct Hin as [Hin He].
    apply in_split in Hin. destruct Hin as (l1 & l2 & Hs).
    destruct (L l1 e l2 Hs He) as (ns & pods & Hp).
    exfalso. apply (Hno ns pods). rewrite Hs. apply in_or_app. now left.
Qed.

Lemma inventory_needs_a_pod_listing_witness :
  inventory_calls
    (events_of (_populate Scenario.first_listing_fails Scenario.one_context)
               fresh)
  = [].
Proof.
  apply (proj2 (inventory_needs_a_pod_listing
                  Scenario.first_listing_fails Scenario.one_context fresh)).
  intros ns pods [H|[H|[H|[]]]]; discriminate.
Defined.

(** X6. After the pods of a namespace are listed, the next call on the
    cluster is the listing of the endpoints of the same namespace: only
    calls on the inventory come in between, also when the listing has no
    pod. *)
Theorem endpoints_listed_after_pods (K : Kubernetes) (doc : yaml_doc)
        (s : self K) pre namespace pods post :
  events_of (_populate K doc) s
  = pre ++ list_pod namespace (inr pods) :: post ->
  exists mid r rest,
    post = mid ++ list_endpoints namespace r :: rest
    /\ Forall (fun e => is_inventory_call e = true) mid.
Proof.
  intros H.
  assert (L : locally (fun _ e post =>
                         forall ns ps, e = list_pod ns (inr ps) ->
                           exists mid r rest,
                             post = mid ++ list_endpoints ns r :: rest
                             /\ Forall (fun e => is_inventory_call e = true)
                                       mid)
                      (events_of (_populate K doc) s)).
  { apply populate_calls_locally.
    - intros a0 b0 pre' e post' HQ ns ps He.
      destruct (HQ ns ps He) as (mid & r & rest & -> & F).
      exists mid, r, (rest ++ b0). split; [|exact F].
      now rewrite <- app_assoc.
    - intros a ctx _.
      eapply locally_Forall; [apply connect_calls_shape|].
      intros pre' e post' [(src & r & -> & _)|(m & ->)] ns ps He;
        discriminate.
    - intros a ctx ns _ _.
      destruct (namespace_calls_cases K (doc_plugin doc) ctx a ns)
        as [[_ ->]|[(c & e & _ & _ & ->)|(c & ps & _ & _ & ->)]].
      + apply locally_nil.
      + intros pre' e' post' H'. enum H'. discriminate.
      + apply locally_cons with
          (Q' := fun _ e _ => forall ns' r, e <> list_pod ns' r).
        * intros ns' ps' He. injection He as <- <-.
          destruct (service_calls_shape K c ns) as (tl & -> & _).
          exists (flat_map (pod_events (doc_plugin doc) ctx ns) ps),
            (list_namespaced_endpoints K c ns), tl.
          split; [reflexivity | apply pods_events_inventory].
        * intros pre' e post' _ Hne ns' ps' He.
          now destruct (Hne ns' (inr ps')).
        * eapply locally_Forall with
            (P := fun e => forall ns' r, e <> list_pod ns' r); [|auto].
          apply Forall_app. split.
          -- apply inventory_no_pod_listing, pods_events_inventory.
          -- apply service_calls_no_pod_listing.
    - intros m pre' e post' H'. enum H'. discriminate. }
  exact (L pre _ post H namespace pods eq_refl).
Qed.

Lemma endpoints_listed_after_pods_witness :
  exists mid r rest,
    skipn 2 Scenario.run_a = mid ++ list_endpoints "ns1" r :: rest
    /\ Forall (fun e => is_inventory_call e = true) mid.
Proof.
  apply (endpoints_listed_after_pods
           Scenario.serving Scenario.one_context fresh
           (firstn 1 Scenario.run_a) "ns1"%string
           [Scenario.web_1; Scenario.web_build_1] (skipn 2 Scenario.run_a)).
  reflexivity.
Defined.

(** X7. A run asks the cluster only for what is configured: every
    credentials load is for the credentials of a configured context, and
    every listing of pods or endpoints, answered or refused, is for a
    namespace of a configured context. *)
Theorem only_configured_calls (K : Kubernetes) (doc : yaml_doc) (s : self K)
        (e : event) :
  In e (events_of (_populate K doc) s) ->
  match e with
  | load_config src _ =>
      exists context, In context (doc_contexts doc)
                      /\ credentials context = inr src
  | list_pod namespace _ | list_endpoints namespace _ =>
      exists context, In context (doc_contexts doc)
                      /\ In namespace (context_namespaces context)
  | _ => True
  end.
Proof.
  set (P := fun e : event =>
              match e with
              | load_config src _ =>
                  exists context, In context (doc_contexts doc)
                                  /\ credentials context = inr src
              | list_pod namespace _ | list_endpoints namespace _ =>
                  exists context, In context (doc_contexts doc)
                                  /\ In namespace (context_namespaces context)
              | _ => True
              end).
  revert e. apply (locally_In P).
  assert (Hinv : forall e, is_inventory_call e = true -> P e)
    by (intros []; simpl; (discriminate || auto)).
  apply populate_calls_locally.
  - intros a0 b0 pre e post H. exact H.
  - intros a ctx Hctx.
    eapply locally_Forall; [apply connect_calls_shape|].
    intros pre e post [(src & r & -> & Hc)|(m & ->)]; simpl; eauto.
  - intros a ctx ns Hctx Hns.
    destruct (namespace_calls_cases K (doc_plugin doc) ctx a ns)
      as [[_ ->]|[(c & e & _ & _ & ->)|(c & ps & _ & _ & ->)]].
    + apply locally_nil.
    + intros pre e' post H. enum H. simpl. eauto.
    + eapply locally_Forall with (P := P); [|auto].
      constructor; [simpl; eauto|]. apply Forall_app. split.
      * eapply Forall_impl; [|apply pods_events_inventory]. exact Hinv.
      * destruct (service_calls_shape K c ns) as (tl & -> & F).
        constructor; [simpl; eauto|].
        eapply Forall_impl; [|exact F].
        intros e [He|(m & ->)]; [|exact I].
        apply Hinv. now apply group_call_inventory.
  - intros m pre e post H. enum H. exact I.
Qed.

Lemma only_configured_calls_witness :
  exists context, In context [Scenario.local_ctx]
                  /\ In "ns1"%string (context_namespaces context).
Proof.
  apply (only_configured_calls
           Scenario.serving Scenario.one_context fresh
           (list_endpoints "ns1" (inr [Scenario.web_svc]))).
  do 18 right. left. reflexivity.
Defined.

(** X8. A run asks for the pods of the configured namespaces in the order of
    the configuration, context after context, and stops somewhere: the
    namespaces asked for are the first ones of the configured sequence, and
    all of it when the run reports no error. *)
Theorem namespaces_in_configured_order (K : Kubernetes) (doc : yaml_doc)
        (s : self K) :
  exists rest,
    flat_map context_namespaces (doc_contexts doc)
    = pod_listing_namespaces (events_of (_populate K doc) s) ++ rest
    /\ (reports (events_of (_populate K doc) s) = [] -> rest = []).
Proof.
  rewrite populate_calls. unfold run_calls.
  destruct doc as [cfg|ty]; cbn [doc_contexts].
  2:{ exists []. split; [reflexivity | discriminate]. }
  destruct (contexts cfg) as [cs|].
  2:{ exists []. split; [reflexivity | discriminate]. }
  destruct (contexts_loop_order K (doc_plugin (YMapping cfg)) cs (api s))
    as (rest & Hn & Hr).
  destruct (contexts_calls K (doc_plugin (YMapping cfg)) (api s) cs)
    as [[d [e|]] a']; cbn [fst snd] in *.
  - exists rest. split.
    + unfold pod_listing_namespaces in *. rewrite flat_map_app. cbn [flat_map].
      now rewrite app_nil_r.
    + unfold reports. rewrite flat_map_app. cbn [flat_map].
      intros H. apply app_eq_nil in H. destruct H as [_ H]. discriminate.
  - exists rest. split; [exact Hn|]. intros _. now apply Hr.
Qed.

Lemma namespaces_in_configured_order_witness :
  pod_listing_namespaces
    (events_of (_populate Scenario.serving Scenario.two_contexts) fresh)
  = ["ns1"; "ns2"]%string.
Proof.
  destruct (namespaces_in_configured_order
              Scenario.serving Scenario.two_contexts fresh)
    as (rest & Hn & Hr).
  rewrite (Hr eq_refl), app_nil_r in Hn. symmetry. exact Hn.
Defined.

End RunProperties.

(** ** Which handle a listing goes through *)

Section Handles.

Variable K : Kubernetes.
Local Open Scope list_scope.

Lemma handle_after_app a d1 d2 :
  handle_after K a (d1 ++ d2) = handle_after K (handle_after K a d1) d2.
Proof. apply fold_left_app. Qed.

Lemma handle_after_quiet a d :
  Forall (fun e => forall src, e <> load_config src None) d ->
  handle_after K a d = a.
Proof.
  induction 1 as [|e d He _ IH]; [reflexivity|].
  unfold handle_after in *. cbn [fold_left].
  destruct e as [src [x|]| | | | | | |]; try exact IH.
  now destruct (He src).
Qed.

Lemma tracked_nil a : tracked K a [].
Proof. intros pre e post H. destruct pre; discriminate. Qed.

Lemma tracked_app a d1 d2 :
  tracked K a d1 -> tracked K (handle_after K a d1) d2 ->
  tracked K a (d1 ++ d2).
Proof.
  intros H1 H2 pre e post H. apply split_app in H.
  destruct H as [[l [-> ->]]|[l [-> ->]]].
  - apply (H1 pre e l eq_refl).
  - rewrite handle_after_app. apply (H2 l e post eq_refl).
Qed.

Lemma tracked_trivial a d :
  Forall (fun e => forall h, listing_through K h e) d -> tracked K a d.
Proof.
  intros F pre e post ->. rewrite Forall_forall in F.
  apply F, in_elt.
Qed.

Lemma tracked_cons a e d :
  listing_through K a e -> tracked K (handle_after K a [e]) d ->
  tracked K a (e :: d).
Proof.
  intros He Hd. apply (tracked_app a [e] d); [|exact Hd].
  intros pre e' post H. enum H. exact He.
Qed.

Lemma inventory_listing_free d :
  Forall (fun e => is_inventory_call e = true) d ->
  Forall (fun e => forall h, listing_through K h e) d
  /\ Forall (fun e => forall src, e <> load_config src None) d.
Proof.
  intros F. split; (eapply Forall_impl; [|exact F]); intros e He.
  - intros h. destruct e; try exact I; discriminate.
  - intros src ->. discriminate.
Qed.

Lemma service_calls_tracked c ns :
  tracked K (Some c) (service_calls K (Some c) ns)
  /\ handle_after K (Some c) (service_calls K (Some c) ns) = Some c.
Proof.
  destruct (service_calls_shape K c ns) as (tl & -> & F).
  assert (F1 : Forall (fun e => forall h, listing_through K h e) tl).
  { eapply Forall_impl; [|exact F].
    intros e [He|(m & ->)] h; [|exact I].
    destruct e; try exact I; discriminate. }
  assert (F2 : Forall (fun e => forall src, e <> load_config src None) tl).
  { eapply Forall_impl; [|exact F].
    intros e [He|(m & ->)] src; [|discriminate].
    intros ->. discriminate. }
  split.
  - apply tracked_cons; [exists c; auto | now apply tracked_trivial].
  - apply handle_after_quiet. constructor; [discriminate | exact F2].
Qed.

Lemma namespace_calls_tracked pl ctx a ns :
  tracked K a (fst (namespace_calls K pl ctx a ns))
  /\ handle_after K a (fst (namespace_calls K pl ctx a ns)) = a.
Proof.
  destruct (namespace_calls_cases K pl ctx a ns)
    as [[_ ->]|[(c & e & -> & E & ->)|(c & pods & -> & E & ->)]].
  - split; [apply tracked_nil | reflexivity].
  - split; [|reflexivity].
    apply tracked_cons; [exists c; auto | apply tracked_nil].
  - destruct (inventory_listing_free _
                (pods_events_inventory pl ctx ns pods)) as [F1 F2].
    destruct (service_calls_tracked c ns) as [T H].
    split.
    + apply tracked_cons; [exists c; auto|].
      apply tracked_app; [now apply tracked_trivial|].
      cbn [handle_after fold_left]. fold (handle_after K (Some c)
        (flat_map (pod_events pl ctx ns) pods)).
      now rewrite (handle_after_quiet _ _ F2).
    + change (list_pod ns (inr pods)
              :: flat_map (pod_events pl ctx ns) pods
                 ++ service_calls K (Some c) ns)
        with ((list_pod ns (inr pods)
               :: flat_map (pod_events pl ctx ns) pods)
              ++ service_calls K (Some c) ns).
      rewrite handle_after_app.
      rewrite (handle_after_quiet (Some c)
                 (list_pod ns (inr pods)
                  :: flat_map (pod_events pl ctx ns) pods));
        [exact H|].
      constructor; [discriminate | exact F2].
Qed.

Lemma loop_calls_tracked pl ctx a nss :
  tracked K a (fst (loop_calls (namespace_calls K pl ctx a) nss))
  /\ handle_after K a (fst (loop_calls (namespace_calls K pl ctx a) nss)) = a.
Proof.
  induction nss as [|ns nss [IT IH]]; cbn [loop_calls].
  - split; [apply tracked_nil | reflexivity].
  - destruct (namespace_calls_tracked pl ctx a ns) as [T H].
    destruct (namespace_calls K pl ctx a ns) as [d [e|]]; cbn [fst] in *;
      [now split|].
    destruct (loop_calls (namespace_calls K pl ctx a) nss) as [d' r].
    cbn [fst] in *. split.
    + apply tracked_app; [exact T | now rewrite H].
    + now rewrite handle_after_app, H.
Qed.

Lemma connect_calls_tracked a ctx :
  tracked K a (fst (connect_calls K a ctx))
  /\ handle_after K a (fst (connect_calls K a ctx))
     = snd (connect_calls K a ctx).
Proof.
  split.
  - apply tracked_trivial.
    eapply Forall_impl; [|apply connect_calls_shape].
    intros e [(src & r & -> & _)|(m & ->)] h; exact I.
  - unfold connect_calls. destruct (credentials ctx) as [e|src];
      [reflexivity|].
    destruct (kube_load K src) as [e|c] eqn:E; cbn [fst snd];
      unfold handle_after; cbn [fold_left]; [reflexivity|].
    now rewrite E.
Qed.

Lemma context_calls_tracked pl a ctx :
  tracked K a (fst (fst (context_calls K pl a ctx)))
  /\ handle_after K a (fst (fst (context_calls K pl a ctx)))
     = snd (context_calls K pl a ctx).
Proof.
  unfold context_calls. destruct (connect_calls_tracked a ctx) as [T H].
  destruct (connect_calls K a ctx) as [d a']. cbn [fst snd] in *.
  destruct (namespaces ctx) as [nss|]; [|now split].
  destruct (loop_calls_tracked pl ctx a' nss) as [T' H'].
  destruct (loop_calls (namespace_calls K pl ctx a') nss) as [d' r].
  cbn [fst snd] in *. split.
  - apply tracked_app; [exact T | now rewrite H].
  - now rewrite handle_after_app, H.
Qed.

Lemma contexts_calls_tracked pl cs a :
  tracked K a (fst (fst (contexts_calls K pl a cs)))
  /\ handle_after K a (fst (fst (contexts_calls K pl a cs)))
     = snd (contexts_calls K pl a cs).
Proof.
  revert a. induction cs as [|ctx cs IH]; intros a; cbn [contexts_calls].
  - split; [apply tracked_nil | reflexivity].
  - destruct (context_calls_tracked pl a ctx) as [T H].
    destruct (context_calls K pl a ctx) as [[d [e|]] a'];
      cbn [fst snd] in *; [now split|].
    destruct (IH a') as [T' H'].
    destruct (contexts_calls K pl a' cs) as [[d' r] a'']. cbn [fst snd] in *.
    split.
    + apply tracked_app; [exact T | now rewrite H].
    + now rewrite handle_after_app, H.
Qed.

Lemma run_calls_tracked doc a :
  tracked K a (run_calls K doc a)
  /\ forall pl cs, doc = YMapping (mkConfig pl (Some cs)) ->
       handle_after K a (run_calls K doc a)
       = snd (contexts_calls K (doc_plugin doc) a cs).
Proof.
  assert (R : forall m, tracked K a [display_error m]).
  { intros m. apply tracked_trivial. constructor; [|constructor].
    intros h. exact I. }
  unfold run_calls. destruct doc as [[pl [cs|]]|ty]; cbn [contexts].
  2,3: split; [apply R | intros ? ? H; discriminate].
  destruct (contexts_calls_tracked
              (doc_plugin (YMapping (mkConfig pl (Some cs)))) cs a) as [T H].
  destruct (contexts_calls K (doc_plugin (YMapping (mkConfig pl (Some cs))))
                           a cs) as [[d [e|]] a'] eqn:E; cbn [fst snd] in *.
  - split.
    + apply tracked_app; [exact T|]. apply tracked_trivial.
      constructor; [|constructor]. intros h. exact I.
    + intros pl' cs' Heq. injection Heq as <- <-. rewrite E. cbn [snd].
      rewrite handle_after_app, H. reflexivity.
  - split; [exact T|].
    intros pl' cs' Heq. injection Heq as <- <-. rewrite E. exact H.
Qed.

(** The handle a run leaves on the object. *)
Lemma populate_handle doc (s : self K) :
  api (snd (_populate K doc s))
  = handle_after K (api s) (events_of (_populate K doc) s).
Proof.
  rewrite populate_calls.
  destruct doc as [[pl [cs|]]|ty]; try reflexivity.
  destruct (run_calls_tracked (YMapping (mkConfig pl (Some cs))) (api s))
    as [_ H].
  rewrite (H pl cs eq_refl), populate_unfold.
  set (p := doc_plugin (YMapping {| plugin_name := pl; contexts := Some cs |})).
  destruct (contexts_runs K p cs (snd (set_plugin K p s)) eq_refl)
    as (s1 & E1 & _ & A1 & _).
  rewrite E1. change (api (snd (set_plugin K p s))) with (api s) in *.
  destruct (snd (fst (contexts_calls K p (api s) cs)));
    cbn [result_of]; exact A1.
Qed.

End Handles.

Section HandleProperties.

Local Open Scope list_scope.

(** X9. Every listing of a run goes through the handle of the last
    connection that had succeeded by then, whichever context it was made
    for, or through the handle the object had before the run when none has;
    what it returns is what the cluster answers to that handle. *)
Theorem listings_use_the_last_handle (K : Kubernetes) (doc : yaml_doc)
        (s : self K) pre e post :
  events_of (_populate K doc) s = pre ++ e :: post ->
  (forall namespace r,
     e = list_pod namespace r ->
     exists c, handle_after K (api s) pre = Some c
               /\ r = list_namespaced_pod K c namespace)
  /\ (forall namespace r,
        e = list_endpoints namespace r ->
        exists c, handle_after K (api s) pre = Some c
                  /\ r = list_namespaced_endpoints K c namespace).
Proof.
  intros H. rewrite populate_calls in H.
  destruct (run_calls_tracked K doc (api s)) as [T _].
  specialize (T pre e post H).
  split; intros ns r ->; exact T.
Qed.

Lemma listings_use_the_last_handle_witness :
  exists c, handle_after Scenario.serving (@api Scenario.serving fresh)
                         (firstn 1 Scenario.run_a) = Some c
            /\ inr [Scenario.web_1; Scenario.web_build_1]
               = list_namespaced_pod Scenario.serving c "ns1".
Proof.
  apply (proj1 (listings_use_the_last_handle
                  Scenario.serving Scenario.one_context fresh
                  (firstn 1 Scenario.run_a)
                  (list_pod "ns1" (inr [Scenario.web_1; Scenario.web_build_1]))
                  (skipn 2 Scenario.run_a) eq_refl)
               "ns1"%string (inr [Scenario.web_1; Scenario.web_build_1])).
  reflexivity.
Defined.

(** X10. A run takes nothing from the object it starts on but the handle,
    and leaves on it the handle of its last connection that succeeded (the
    one it started with when none did): two objects with the same handle
    give the same calls, whatever plugin name, host name and earlier calls
    they carry. *)
Theorem run_depends_on_the_handle_only (K : Kubernetes) (doc : yaml_doc)
        (s1 s2 : self K) :
  api s1 = api s2 ->
  events_of (_populate K doc) s1 = events_of (_populate K doc) s2
  /\ api (snd (_populate K doc s1)) = api (snd (_populate K doc s2))
  /\ api (snd (_populate K doc s1))
     = handle_after K (api s1) (events_of (_populate K doc) s1).
Proof.
  intros H. rewrite !populate_handle, !populate_calls, H. auto.
Qed.

Lemma run_depends_on_the_handle_only_witness :
  events_of (_populate Scenario.serving Scenario.one_context) fresh
  = events_of (_populate Scenario.serving Scenario.one_context)
              (snd (_populate Scenario.serving Scenario.no_contexts_key
                              fresh))
  /\ api (snd (_populate Scenario.serving Scenario.one_context fresh))
     = api (snd (_populate Scenario.serving Scenario.one_context
                   (snd (_populate Scenario.serving
                                   Scenario.no_contexts_key fresh))))
  /\ api (snd (_populate Scenario.serving Scenario.one_context fresh))
     = handle_after Scenario.serving (@api Scenario.serving fresh)
         (events_of (_populate Scenario.serving Scenario.one_context) fresh).
Proof.
  apply (run_depends_on_the_handle_only
           Scenario.serving Scenario.one_context fresh).
  reflexivity.
Defined.

End HandleProperties.

(** ** Connections *)

Section Connections.

Local Open Scope list_scope.

(** X11. [_connect] either loads the credentials it chose and stores the
    new handle, with no report, or reports an error and leaves the handle
    that was there, so that later listings go through the handle of an
    earlier context; it never touches the inventory, the plugin name or the
    host name. *)
Theorem connect_keeps_or_replaces_handle (K : Kubernetes)
        (context : ClusterContext) (s : self K) :
  let d := events_of (_connect K context) s in
  let s' := snd (_connect K context s) in
  plugin s' = plugin s
  /\ inventory_hostname s' = inventory_hostname s
  /\ trace s' = trace s ++ d
  /\ inventory_calls d = []
  /\ ((exists src c,
         credentials context = inr src /\ kube_load K src = inr c
         /\ d = [load_config src None] /\ api s' = Some c)
      \/ (reports d <> [] /\ api s' = api s)).
Proof.
  intros d s'. subst d s'.
  destruct (_connect_runs K context s) as [R Hh].
  rewrite (runs_events K _ _ _ _ _ R).
  destruct R as (s1 & E & T & A & P). rewrite E. cbn [snd].
  rewrite E in Hh. cbn [snd] in Hh.
  split; [exact P|]. split; [exact Hh|]. split; [exact T|].
  unfold connect_calls in *.
  destruct (credentials context) as [e|src]; cbn [fst snd] in *.
  { split; [reflexivity|]. right. split; [discriminate | exact A]. }
  destruct (kube_load K src) as [e|c] eqn:L; cbn [fst snd] in *.
  - split; [reflexivity|]. right. split; [discriminate | exact A].
  - split; [reflexivity|]. left. exists src, c. auto.
Qed.

(** [_generate_kubernetes_config] succeeds exactly when the context
    has a first namespace (it raises [TypeError] without [namespaces] and
    [IndexError] on an empty list), and what it builds is consistent: one
    cluster, one context and one user entry, the current context naming the
    context entry, which names the cluster and the user entry and takes the
    first namespace; the server address is the cluster name after
    [https://]. *)
Lemma generated_config_is_consistent (context : ClusterContext) :
  match _generate_kubernetes_config context with
  | inr (cfg, active) =>
      exists namespace0 rest c x u,
        namespaces context = Some (namespace0 :: rest)
        /\ KubeConfig.current_context cfg = active
        /\ KubeConfig.clusters cfg = [c]
        /\ KubeConfig.contexts cfg = [x]
        /\ KubeConfig.users cfg = [u]
        /\ KubeConfig.context_name x = active
        /\ KubeConfig.context_cluster x = KubeConfig.cluster_name c
        /\ KubeConfig.context_user x = KubeConfig.user_name u
        /\ KubeConfig.context_namespace x = namespace0
        /\ KubeConfig.cluster_server c
           = ("https://" ++ KubeConfig.cluster_name c)%string
        /\ KubeConfig.user_token u = opt_str (token context)
  | inl e =>
      (namespaces context = None /\ kind_of e = TypeError)
      \/ (namespaces context = Some [] /\ kind_of e = IndexError)
  end.
Proof.
  unfold _generate_kubernetes_config.
  destruct (namespaces context) as [[|ns0 rest]|].
  - right. auto.
  - do 5 eexists. repeat split.
  - left. auto.
Qed.

Lemma contexts_calls_app (K : Kubernetes) pl a cs1 cs2 :
  contexts_calls K pl a (cs1 ++ cs2)
  = match contexts_calls K pl a cs1 with
    | (d, Some e, a') => (d, Some e, a')
    | (d, None, a') =>
        match contexts_calls K pl a' cs2 with
        | (d', r, a'') => (d ++ d', r, a'')
        end
    end.
Proof.
  revert a. induction cs1 as [|ctx cs1 IH]; intros a.
  - cbn [app contexts_calls].
    now destruct (contexts_calls K pl a cs2) as [[? ?] ?].
  - cbn [app contexts_calls].
    destruct (context_calls K pl a ctx) as [[d [e|]] a']; [reflexivity|].
    rewrite IH.
    destruct (contexts_calls K pl a' cs1) as [[d1 [e|]] a1]; [reflexivity|].
    destruct (contexts_calls K pl a1 cs2) as [[d2 r] a2].
    now rewrite app_assoc.
Qed.

(** X12. A context without a [namespaces] key silences every context after
    it: the run reports an error and makes the same calls as if the
    configuration ended with that context. *)
Theorem missing_namespaces_end_the_run (K : Kubernetes) pl
        (cs1 cs2 : list ClusterContext) (context : ClusterContext)
        (s : self K) :
  namespaces context = None ->
  events_of (_populate K (YMapping (mkConfig pl
                                      (Some (cs1 ++ context :: cs2))))) s
  = events_of (_populate K (YMapping (mkConfig pl
                                        (Some (cs1 ++ [context]))))) s
  /\ reports (events_of (_populate K (YMapping (mkConfig pl
                (Some (cs1 ++ context :: cs2))))) s) <> [].
Proof.
  intros Hn. rewrite !populate_calls. unfold run_calls. cbn [contexts].
  change (doc_plugin (YMapping {| plugin_name := pl;
                                  contexts := Some (cs1 ++ context :: cs2) |}))
    with (doc_plugin (YMapping {| plugin_name := pl;
                                  contexts := Some (cs1 ++ [context]) |})).
  set (p := doc_plugin (YMapping {| plugin_name := pl;
                                    contexts := Some (cs1 ++ [context]) |})).
  rewrite !contexts_calls_app.
  destruct (contexts_calls K p (api s) cs1) as [[d1 [e|]] a1].
  { split; [reflexivity|]. unfold reports. rewrite flat_map_app.
    intros H. apply app_eq_nil in H. destruct H as [_ H]. discriminate. }
  cbn [contexts_calls]. unfold context_calls. rewrite Hn.
  destruct (connect_calls K a1 context) as [d a'].
  split; [reflexivity|]. unfold reports. rewrite flat_map_app.
  intros H. apply app_eq_nil in H. destruct H as [_ H]. discriminate.
Qed.

Lemma missing_namespaces_end_the_run_witness :
  hosts_added (events_of (_populate Scenario.serving unscoped_between) fresh)
  = ["app_web-1"%string]
  /\ events_of (_populate Scenario.serving unscoped_between) fresh
     = events_of (_populate Scenario.serving
                    (YMapping (mkConfig None
                                 (Some [Scenario.file_ctx; unscoped_ctx]))))
                 fresh.
Proof.
  split; [reflexivity|].
  apply (missing_namespaces_end_the_run
           Scenario.serving None [Scenario.file_ctx] [Scenario.local_ctx]
           unscoped_ctx fresh).
  reflexivity.
Defined.

(** X13. When the object has no handle after the connection attempt of the
    first context (it had none and the attempt failed), and that context
    has a namespace, the run ends there: after the calls of the attempt it
    only reports the missing [api] attribute, whatever contexts follow. *)
Theorem no_handle_ends_the_run (K : Kubernetes) pl
        (context : ClusterContext) (cs : list ClusterContext)
        (namespace : string) (nss : list string) (s : self K) :
  namespaces context = Some (namespace :: nss) ->
  api (snd (_connect K context s)) = None ->
  events_of (_populate K (YMapping (mkConfig pl (Some (context :: cs))))) s
  = events_of (_connect K context) s
    ++ [display_error "'InventoryModule' object has no attribute 'api'"].
Proof.
  intros Hn Ha. rewrite populate_calls.
  destruct (_connect_runs K context s) as [R _].
  rewrite (runs_events K _ _ _ _ _ R).
  destruct R as (s1 & E & _ & A & _). rewrite E in Ha. cbn [snd] in Ha.
  unfold run_calls. cbn [contexts contexts_calls]. unfold context_calls.
  destruct (connect_calls K (api s) context) as [d a']. cbn [fst snd] in *.
  rewrite Hn. assert (a' = None) as -> by congruence.
  cbn [loop_calls namespace_calls]. now rewrite app_nil_r.
Qed.

Lemma no_handle_ends_the_run_witness :
  events_of (_populate Scenario.first_fails Scenario.two_contexts) fresh
  = events_of (_connect Scenario.first_fails Scenario.local_ctx) fresh
    ++ [display_error "'InventoryModule' object has no attribute 'api'"].
Proof.
  apply (no_handle_ends_the_run
           Scenario.first_fails (Some "kubectl"%string) Scenario.local_ctx
           [Scenario.file_ctx] "ns1"%string [] fresh);
    reflexivity.
Defined.

End Connections.

(** ** Service groups in a run *)

Section ServiceGroups.

Local Open Scope list_scope.

(** X14. Every endpoint of a listing that succeeds gets its group in the
    calls that follow, also an endpoint without subsets or addresses, which
    gets an empty group; and every address of it whose [target_ref] has a
    kind containing ["Pod"] is added to that group. *)
Theorem every_endpoint_gets_a_group (K : Kubernetes) (doc : yaml_doc)
        (s : self K) pre namespace eps post ep :
  events_of (_populate K doc) s
  = pre ++ list_endpoints namespace (inr eps) :: post ->
  In ep eps ->
  In (add_group (service_name ep)) post
  /\ (forall sub a r,
        In sub (subsets ep) -> In a (addresses sub) ->
        target_ref a = Some r -> contains "Pod" (ref_kind r) = true ->
        In (add_child (service_name ep) (ref_name r)) post).
Proof.
  intros H Hep.
  assert (L : locally (fun _ e post =>
                         forall ns l, e = list_endpoints ns (inr l) ->
                           exists rest,
                             post = flat_map endpoint_events l ++ rest)
                      (events_of (_populate K doc) s)).
  { apply populate_calls_locally.
    - intros a0 b0 pre' e post' HQ ns l He.
      destruct (HQ ns l He) as (rest & ->).
      exists (rest ++ b0). now rewrite <- app_assoc.
    - intros a ctx _.
      eapply locally_Forall; [apply connect_calls_shape|].
      intros pre' e post' [(src & r & -> & _)|(m & ->)] ns l He;
        discriminate.
    - intros a ctx ns _ _.
      destruct (namespace_calls_cases K (doc_plugin doc) ctx a ns)
        as [[_ ->]|[(c & e & _ & _ & ->)|(c & ps & _ & _ & ->)]].
      + apply locally_nil.
      + intros pre' e' post' H'. enum H'. discriminate.
      + change (list_pod ns (inr ps)
                :: flat_map (pod_events (doc_plugin doc) ctx ns) ps
                   ++ service_calls K (Some c) ns)
          with ((list_pod ns (inr ps)
                 :: flat_map (pod_events (doc_plugin doc) ctx ns) ps)
                ++ service_calls K (Some c) ns).
        apply locally_app.
        * intros a0 b0 pre' e post' HQ ns' l He.
          destruct (HQ ns' l He) as (rest & ->).
          exists (rest ++ b0). now rewrite <- app_assoc.
        * eapply locally_Forall with
            (P := fun e => forall ns' l, e <> list_endpoints ns' (inr l)).
          -- constructor; [discriminate|].
             eapply Forall_impl; [|apply pods_events_inventory].
             intros e He ns' l ->. discriminate.
          -- intros pre' e post' Hne ns' l He. now destruct (Hne ns' l).
        * unfold service_calls.
          destruct (list_namespaced_endpoints K c ns) as [x|l].
          -- intros pre' e post' H'. enum H'; intros; discriminate.
          -- apply locally_cons with
               (Q' := fun _ e _ => is_group_call e = true).
             ++ intros ns' l' He. injection He as <- <-.
                exists []. now rewrite app_nil_r.
             ++ intros pre' e post' _ Hg ns' l' He. subst e. discriminate.
             ++ eapply locally_Forall; [apply endpoints_events_groups|auto].
    - intros m pre' e post' H'. enum H'. discriminate. }
  destruct (L pre _ post H namespace eps eq_refl) as (rest & ->).
  apply in_split in Hep. destruct Hep as (l1 & l2 & ->).
  rewrite flat_map_app. cbn [flat_map]. split.
  - apply in_or_app. left. apply in_or_app. right.
    apply in_or_app. left. now left.
  - intros sub a r Hsub Ha Hr Hk.
    apply in_or_app. left. apply in_or_app. right.
    apply in_or_app. left. right.
    apply in_flat_map. exists sub. split; [exact Hsub|].
    apply in_flat_map. exists a. split; [exact Ha|].
    unfold address_events. rewrite Hr, Hk. now left.
Qed.

Lemma every_endpoint_gets_a_group_witness :
  In (add_group "web-svc") (skipn 19 Scenario.run_a)
  /\ In (add_child "web-svc" "web-1") (skipn 19 Scenario.run_a).
Proof.
  destruct (every_endpoint_gets_a_group
              Scenario.serving Scenario.one_context fresh
              (firstn 18 Scenario.run_a) "ns1"%string [Scenario.web_svc]
              (skipn 19 Scenario.run_a) Scenario.web_svc eq_refl
              (or_introl eq_refl)) as [G C].
  split; [exact G|].
  apply (C (mkSubset [mkAddress (Some (mkRef "Pod" "web-1"));
                      mkAddress None;
                      mkAddress (Some (mkRef "Node" "node-1"))])
           (mkAddress (Some (mkRef "Pod" "web-1")))
           (mkRef "Pod" "web-1")).
  - now left.
  - now left.
  - reflexivity.
  - reflexivity.
Defined.

End ServiceGroups.

(** * The claims proved from the calls of a run *)

(** ** Where a call of a run comes from *)

Section Positions.

Variable K : Kubernetes.
Local Open Scope list_scope.

(** A call of a loop is a call of one of its passes, after all the calls of
    the passes before it, none of which raised. *)
Lemma loop_calls_position {A} (f : A -> list event * option exn) l pre e post :
  fst (loop_calls f l) = pre ++ e :: post ->
  exists l1 x l2 d1 p1 p2 p3,
    l = l1 ++ x :: l2 /\ loop_calls f l1 = (d1, None)
    /\ pre = d1 ++ p1 /\ fst (f x) = p1 ++ e :: p2 /\ post = p2 ++ p3.
Proof.
  revert pre. induction l as [|x l IH]; intros pre H; cbn [loop_calls] in H.
  - destruct pre; discriminate.
  - destruct (f x) as [d [err|]] eqn:Fx; cbn [fst] in H.
    + exists [], x, l, [], pre, post, []. rewrite Fx, app_nil_r. auto.
    + destruct (loop_calls f l) as [d' r] eqn:L. cbn [fst] in *.
      apply split_app in H. destruct H as [[t [-> ->]]|[t [-> H]]].
      * exists [], x, l, [], pre, t, d'. rewrite Fx. auto.
      * destruct (IH t H)
          as (l1 & y & l2 & d1 & p1 & p2 & p3 & -> & L1 & -> & Fy & ->).
        exists (x :: l1), y, l2, (d ++ d1), p1, p2, p3.
        cbn [loop_calls app]. rewrite Fx, L1, app_assoc. auto.
Qed.

Lemma contexts_calls_position pl cs a pre e post :
  fst (fst (contexts_calls K pl a cs)) = pre ++ e :: post ->
  exists cs1 ctx cs2 d1 a1 p1 p2 p3,
    cs = cs1 ++ ctx :: cs2 /\ contexts_calls K pl a cs1 = (d1, None, a1)
    /\ pre = d1 ++ p1
    /\ fst (fst (context_calls K pl a1 ctx)) = p1 ++ e :: p2
    /\ post = p2 ++ p3.
Proof.
  revert a pre. induction cs as [|ctx cs IH]; intros a pre H;
    cbn [contexts_calls] in H.
  - destruct pre; discriminate.
  - destruct (context_calls K pl a ctx) as [[d [err|]] a'] eqn:Fx;
      cbn [fst] in H.
    + exists [], ctx, cs, [], a, pre, post, []. rewrite Fx, app_nil_r. auto.
    + destruct (contexts_calls K pl a' cs) as [[d' r] a''] eqn:L.
      cbn [fst] in *.
      apply split_app in H. destruct H as [[t [-> ->]]|[t [-> H]]].
      * exists [], ctx, cs, [], a, pre, t, d'. rewrite Fx. auto.
      * specialize (IH a' t). rewrite L in IH.
        destruct (IH H)
          as (cs1 & y & cs2 & d1 & a1 & p1 & p2 & p3 & -> & L1 & -> & Fy
              & ->).
        exists (ctx :: cs1), y, cs2, (d ++ d1), a1, p1, p2, p3.
        cbn [contexts_calls app]. rewrite Fx, L1, app_assoc. auto.
Qed.

Lemma container_events_host pl ctx ns pod c p1 h p2 :
  container_events pl ctx ns pod c = p1 ++ add_host h :: p2 ->
  p1 = [] /\ h = host_key (container_name c) (pod_name pod).
Proof.
  intros H.
  destruct (container_events_created_by pl ctx ns pod c p1 _ p2 H h eq_refl)
    as [Hh E].
  split; [|exact Hh].
  rewrite <- E in H. symmetry.
  apply (app_inv_tail (add_host h :: p2) [] p1). exact H.
Qed.

Lemma labels_make_no_host pod h :
  ~ In (add_host h) (flat_map (label_events pod) (labels pod)).
Proof.
  intros Hin. apply in_flat_map in Hin. destruct Hin as (kv & _ & Hin).
  destruct Hin as [Hin|[Hin|[]]]; discriminate.
Qed.

Lemma service_calls_make_no_host a ns h :
  ~ In (add_host h) (service_calls K a ns).
Proof.
  destruct a as [c|].
  - destruct (service_calls_shape K c ns) as (tl & -> & F).
    intros [Hin|Hin]; [discriminate|].
    rewrite Forall_forall in F.
    destruct (F _ Hin) as [He|(m & He)]; discriminate.
  - intros [Hin|[]]. discriminate.
Qed.

(** A host created in the pass of a namespace comes after the listing of
    its pods, after the calls of the pods listed before its pod and of the
    containers before its container. *)
Lemma namespace_calls_position pl ctx a ns q1 h q2 :
  fst (namespace_calls K pl ctx a ns) = q1 ++ add_host h :: q2 ->
  exists pods P1 pod P2 C1 c C2 rest,
    q1 = list_pod ns (inr pods)
         :: flat_map (pod_events pl ctx ns) P1
            ++ flat_map (container_events pl ctx ns pod) C1
    /\ pods = P1 ++ pod :: P2 /\ is_build_pod pod = false
    /\ containers pod = C1 ++ c :: C2
    /\ h = host_key (container_name c) (pod_name pod)
    /\ add_host h :: q2 = container_events pl ctx ns pod c ++ rest.
Proof.
  intros H.
  destruct (namespace_calls_cases K pl ctx a ns)
    as [[_ E]|[(c0 & e & _ & _ & E)|(c0 & pods & -> & _ & E)]];
    rewrite E in H; clear E.
  - destruct q1; discriminate.
  - destruct q1 as [|x [|y q1]]; simpl in H; discriminate.
  - destruct q1 as [|x q1]; cbn [app] in H; [discriminate|].
    injection H as <- H.
    apply split_app in H. destruct H as [[l [H ->]]|[l [_ H]]].
    2:{ exfalso. apply (service_calls_make_no_host (Some c0) ns h).
        unfold service_calls. rewrite H. apply in_elt. }
    apply flat_map_split in H.
    destruct H as (P1 & pod & P2 & r1 & r2 & -> & Hpod & -> & ->).
    unfold pod_events in Hpod. destruct (is_build_pod pod) eqn:B.
    { destruct r1; discriminate. }
    apply split_app in Hpod. destruct Hpod as [[l [H ->]]|[l [_ H]]].
    2:{ exfalso. apply (labels_make_no_host pod h). rewrite H. apply in_elt. }
    apply flat_map_split in H.
    destruct H as (C1 & c & C2 & t1 & t2 & Hc & Hce & -> & ->).
    destruct (container_events_host _ _ _ _ _ _ _ _ Hce) as [-> Hh].
    exists (P1 ++ pod :: P2), P1, pod, P2, C1, c, C2.
    exists (flat_map (container_events pl ctx ns pod) C2
            ++ flat_map (label_events pod) (labels pod)
            ++ flat_map (pod_events pl ctx ns) P2
            ++ service_calls K (Some c0) ns).
    rewrite app_nil_r. repeat split; auto.
    rewrite Hce. cbn [app]. rewrite <- !app_assoc. reflexivity.
Qed.

Lemma connect_calls_make_no_host a ctx h :
  ~ In (add_host h) (fst (connect_calls K a ctx)).
Proof.
  intros Hin. pose proof (connect_calls_shape K a ctx) as F.
  rewrite Forall_forall in F.
  destruct (F _ Hin) as [(src & r & He & _)|(m & He)]; discriminate.
Qed.

(** A host created by a run over the contexts [cs]: the context, the
    namespace, the pod and the container it comes from, by their places. *)
Lemma contexts_calls_host pl cs a pre h post :
  fst (fst (contexts_calls K pl a cs)) = pre ++ add_host h :: post ->
  exists cs1 ctx cs2 d1 a1 nss1 ns nss2 dn pods P1 pod P2 C1 c C2 rest,
    cs = cs1 ++ ctx :: cs2 /\ contexts_calls K pl a cs1 = (d1, None, a1)
    /\ namespaces ctx = Some (nss1 ++ ns :: nss2)
    /\ loop_calls (namespace_calls K pl ctx (snd (connect_calls K a1 ctx)))
                  nss1 = (dn, None)
    /\ pre = d1 ++ fst (connect_calls K a1 ctx) ++ dn
             ++ list_pod ns (inr pods)
                :: flat_map (pod_events pl ctx ns) P1
                   ++ flat_map (container_events pl ctx ns pod) C1
    /\ pods = P1 ++ pod :: P2 /\ is_build_pod pod = false
    /\ containers pod = C1 ++ c :: C2
    /\ h = host_key (container_name c) (pod_name pod)
    /\ add_host h :: post = container_events pl ctx ns pod c ++ rest.
Proof.
  intros H. apply contexts_calls_position in H.
  destruct H as (cs1 & ctx & cs2 & d1 & a1 & p1 & p2 & p3 & -> & L1 & ->
                 & H & ->).
  unfold context_calls in H.
  pose proof (connect_calls_make_no_host a1 ctx h) as Hc.
  destruct (connect_calls K a1 ctx) as [d a'] eqn:Ec. cbn [fst snd] in *.
  destruct (namespaces ctx) as [nss|] eqn:En.
  2:{ exfalso. apply Hc. cbn [fst] in H. rewrite H. apply in_elt. }
  destruct (loop_calls (namespace_calls K pl ctx a') nss) as [d' r] eqn:El.
  cbn [fst] in H.
  apply split_app in H. destruct H as [[l [H _]]|[l [-> H]]].
  { exfalso. apply Hc. rewrite H. apply in_elt. }
  assert (H' : fst (loop_calls (namespace_calls K pl ctx a') nss)
               = l ++ add_host h :: p2) by now rewrite El.
  apply loop_calls_position in H'.
  destruct H' as (nss1 & ns & nss2 & dn & q1 & q2 & q3 & -> & Ln & -> & Hq
                  & ->).
  apply namespace_calls_position in Hq.
  destruct Hq as (pods & P1 & pod & P2 & C1 & c & C2 & rest
                  & -> & Hp & Hb & Hcs & Hh & Hr).
  exists cs1, ctx, cs2, d1, a1, nss1, ns, nss2, dn, pods, P1, pod, P2, C1, c,
    C2, (rest ++ q3 ++ p3).
  rewrite Ec. cbn [fst snd]. repeat split; auto.
  rewrite app_assoc, <- Hr, <- app_assoc. reflexivity.
Qed.

End Positions.

(** ** The variables of a host *)

Section Provenance.

Variable K : Kubernetes.
Local Open Scope list_scope.

(** The object after a run that did not raise: the calls made, the handle
    and the plugin name. *)
Lemma populate_state pl cs (s : self K) d a1 :
  contexts_calls K (doc_plugin (YMapping (mkConfig pl (Some cs)))) (api s) cs
  = (d, None, a1) ->
  events_of (_populate K (YMapping (mkConfig pl (Some cs)))) s = d
  /\ api (snd (_populate K (YMapping (mkConfig pl (Some cs))) s)) = a1
  /\ plugin (snd (_populate K (YMapping (mkConfig pl (Some cs))) s))
     = Some (doc_plugin (YMapping (mkConfig pl (Some cs)))).
Proof.
  intros H. split.
  - rewrite populate_calls. unfold run_calls. cbn [contexts]. now rewrite H.
  - rewrite populate_unfold.
    set (p := doc_plugin (YMapping (mkConfig pl (Some cs)))) in *.
    destruct (contexts_runs K p cs (snd (set_plugin K p s)) eq_refl)
      as (s' & E & _ & A & P).
    rewrite E. change (api (snd (set_plugin K p s))) with (api s) in *.
    rewrite H in *. cbn [fst snd result_of] in *.
    split; [exact A | exact P].
Qed.

Lemma connect_state ctx (s : self K) :
  events_of (_connect K ctx) s = fst (connect_calls K (api s) ctx)
  /\ api (snd (_connect K ctx s)) = snd (connect_calls K (api s) ctx)
  /\ plugin (snd (_connect K ctx s)) = plugin s.
Proof.
  destruct (_connect_runs K ctx s) as [R _].
  split; [exact (runs_events K _ _ _ _ _ R)|].
  destruct R as (s' & E & _ & A & P). rewrite E. auto.
Qed.

Lemma namespaces_events pl ctx nss (s : self K) :
  plugin s = Some pl ->
  events_of (for_ K nss (populate_namespace K ctx)) s
  = fst (loop_calls (namespace_calls K pl ctx (api s)) nss).
Proof.
  intros Hp. eapply runs_events.
  apply (for_runs K (populate_namespace K ctx)
                  (namespace_calls K pl ctx (api s)) pl (api s) nss); auto.
  intros ns t _ Ht Ha. rewrite <- Ha. now apply populate_namespace_runs.
Qed.

Lemma pods_hosts pl ctx ns pods :
  hosts_added (flat_map (pod_events pl ctx ns) pods)
  = flat_map pod_host_keys pods.
Proof.
  induction pods as [|pod l IH]; [reflexivity|].
  cbn [flat_map]. unfold hosts_added in *. rewrite flat_map_app, IH.
  f_equal. apply pod_hosts.
Qed.

End Provenance.

(** C8. Every host a run creates receives, right after its creation and
    before anything else, exactly the nine variables, with the values of
    the very context, namespace, pod and container it is created for. These
    are told by the place of the call: the calls before it are those of the
    run over the contexts before that context, then those of the connection
    for the context and of its namespaces before that namespace, then the
    listing of the namespace's pods, which has the pod, not a build pod, and
    only calls on the inventory that created the hosts of the pods listed
    before the pod and of the containers before the container. The host is
    keyed [container_name + "_" + pod_name]; [ansible_host] is the pod name,
    [ansible_connection] the configured plugin name or ["kubernetes"],
    [ansible_user], [ansible_password] and [ansible_kubernetes_cluster] the
    context's username, token and server or [None],
    [ansible_kubernetes_port] the context's port or 8443,
    [ansible_kube_namespace] the namespace, [ansible_kube_config_file] the
    context's file path or [None], [ansible_kube_container] the container
    name; and a run sets no variable elsewhere. Keys are absent or carry a
    value, as the configuration is typed. *)
Theorem host_variables (K : Kubernetes) (doc : yaml_doc) (s : self K)
        pre h post :
  events_of (_populate K doc) s = (pre ++ add_host h :: post)%list ->
  (exists pl contexts_before context contexts_after
          namespaces_before namespace namespaces_after
          pods pods_before pod pods_after
          containers_before container containers_after mid rest,
     doc = YMapping (mkConfig pl (Some (contexts_before
                                        ++ context :: contexts_after)%list))
     /\ namespaces context
        = Some (namespaces_before ++ namespace :: namespaces_after)%list
     /\ (let earlier := YMapping (mkConfig pl (Some contexts_before)) in
         let s1 := snd (_populate K earlier s) in
         let s2 := snd (_connect K context s1) in
         pre = (events_of (_populate K earlier) s
                ++ events_of (_connect K context) s1
                ++ events_of (for_ K namespaces_before
                                   (populate_namespace K context)) s2
                ++ list_pod namespace (inr pods) :: mid)%list)
     /\ pods = (pods_before ++ pod :: pods_after)%list
     /\ contains "-build" (pod_name pod) = false
     /\ containers pod
        = (containers_before ++ container :: containers_after)%list
     /\ Forall (fun e => is_inventory_call e = true) mid
     /\ hosts_added mid
        = (flat_map pod_host_keys pods_before
           ++ map (fun c => (container_name c ++ "_" ++ pod_name pod)%string)
                  containers_before)%list
     /\ h = (container_name container ++ "_" ++ pod_name pod)%string
     /\ post
        = ([ set_variable h "ansible_host" (PyStr (pod_name pod));
             set_variable h "ansible_connection"
               (PyStr (match pl with Some p => p | None => "kubernetes" end));
             set_variable h "ansible_user"
               (match username context with
                | Some u => PyStr u
                | None => PyNone
                end);
             set_variable h "ansible_password"
               (match token context with
                | Some t => PyStr t
                | None => PyNone
                end);
             set_variable h "ansible_kubernetes_port"
               (match port context with
                | Some z => PyInt z
                | None => PyInt 8443
                end);
             set_variable h "ansible_kubernetes_cluster"
               (match server context with
                | Some a => PyStr a
                | None => PyNone
                end);
             set_variable h "ansible_kube_namespace" (PyStr namespace);
             set_variable h "ansible_kube_config_file"
               (match kubernetes_config_file context with
                | Some f => PyStr f
                | None => PyNone
                end);
             set_variable h "ansible_kube_container"
               (PyStr (container_name container)) ]
           ++ add_group namespace :: rest)%list)
  /\ length (variables_set (events_of (_populate K doc) s))
     = 9 * length (hosts_added (events_of (_populate K doc) s)).
Proof.
  intros H. split; [|apply populate_counts].
  rewrite populate_calls in H. unfold run_calls in H.
  destruct doc as [[pl [cs|]]|ty]; cbn [contexts] in H.
  2,3: destruct pre as [|x [|y pre]]; discriminate H.
  set (p := doc_plugin (YMapping (mkConfig pl (Some cs)))) in *.
  assert (Hd : exists post0 tail,
             fst (fst (contexts_calls K p (api s) cs))
             = (pre ++ add_host h :: post0)%list
             /\ post = (post0 ++ tail)%list).
  { destruct (contexts_calls K p (api s) cs) as [[d [e|]] a']; cbn [fst].
    - apply split_app in H. destruct H as [[l [-> ->]]|[l [_ H]]].
      + eauto.
      + destruct l as [|x [|y l]]; discriminate H.
    - exists post, []. now rewrite app_nil_r. }
  destruct Hd as (post0 & tail & Hd & ->).
  apply contexts_calls_host in Hd.
  destruct Hd as (cs1 & ctx & cs2 & d1 & a1 & nss1 & ns & nss2 & dn & pods
                  & P1 & pod & P2 & C1 & c & C2 & rest & -> & L1 & Hns & Ln
                  & -> & Hp & Hb & Hcs & Hh & Hr).
  destruct (populate_state K pl cs1 s d1 a1 L1) as (E1 & A1 & Pl1).
  destruct (connect_state K ctx
              (snd (_populate K (YMapping (mkConfig pl (Some cs1))) s)))
    as (E2 & A2 & Pl2).
  rewrite A1 in E2, A2. rewrite Pl1 in Pl2.
  pose proof (namespaces_events K p ctx nss1 _ Pl2) as E3.
  rewrite A2, Ln in E3. cbn [fst] in E3.
  exists pl, cs1, ctx, cs2, nss1, ns, nss2, pods, P1, pod, P2, C1, c, C2.
  exists (flat_map (pod_events p ctx ns) P1
          ++ flat_map (container_events p ctx ns pod) C1)%list.
  unfold container_events, hostvars_events, opt_str in Hr.
  cbn [app] in Hr. injection Hr as _ Hr.
  eexists. split; [reflexivity|]. split; [exact Hns|].
  split; [cbn zeta; rewrite E1, E2, E3; reflexivity|].
  split; [exact Hp|]. split; [exact Hb|]. split; [exact Hcs|].
  split.
  { apply Forall_app. split; [apply pods_events_inventory|].
    apply Forall_flat_map, Forall_forall. intros x _.
    apply container_events_inventory. }
  split.
  { unfold hosts_added. rewrite flat_map_app.
    fold (hosts_added (flat_map (pod_events p ctx ns) P1)).
    fold (hosts_added (flat_map (container_events p ctx ns pod) C1)).
    rewrite pods_hosts, container_hosts. reflexivity. }
  split; [exact Hh|].
  rewrite Hr, <- Hh. cbn [app]. reflexivity.
Qed.

(** The last host of [run_twice] is created for the second container of
    the second pod on the second visit of ["ns1"], under the context with
    every optional key: its variables are those of that context, not of the
    first one, which lists the same namespace and has none of the keys. *)
Lemma host_variables_witness :
  exists context namespace pod container,
    username context = Some "admin"%string
    /\ token context = Some "s3cr3t"%string
    /\ port context = Some 6443%Z
    /\ server context = Some "k8s.example.com"%string
    /\ kubernetes_config_file context = Some "/etc/kube.conf"%string
    /\ namespace = "ns1"%string
    /\ pod_name pod = "web-2"%string
    /\ container_name container = "sidecar"%string
    /\ nth_error run_twice 175 = Some (add_host "sidecar_web-2").
Proof.
  destruct (host_variables replicated same_namespace_twice fresh
              (firstn 175 run_twice) "sidecar_web-2"%string
              (skipn 176 run_twice) eq_refl)
    as [(pl & cs1 & ctx & cs2 & nss1 & ns & nss2 & pods & P1 & pod & P2 & C1
         & c & C2 & mid & rest & _ & _ & _ & _ & _ & _ & _ & _ & _ & Hpost)
          _].
  assert (Hs : firstn 9 (skipn 176 run_twice)
               = [ set_variable "sidecar_web-2" "ansible_host"
                     (PyStr "web-2");
                   set_variable "sidecar_web-2" "ansible_connection"
                     (PyStr "kubectl");
                   set_variable "sidecar_web-2" "ansible_user"
                     (PyStr "admin");
                   set_variable "sidecar_web-2" "ansible_password"
                     (PyStr "s3cr3t");
                   set_variable "sidecar_web-2" "ansible_kubernetes_port"
                     (PyInt 6443);
                   set_variable "sidecar_web-2" "ansible_kubernetes_cluster"
                     (PyStr "k8s.example.com");
                   set_variable "sidecar_web-2" "ansible_kube_namespace"
                     (PyStr "ns1");
                   set_variable "sidecar_web-2" "ansible_kube_config_file"
                     (PyStr "/etc/kube.conf");
                   set_variable "sidecar_web-2" "ansible_kube_container"
                     (PyStr "sidecar") ]) by reflexivity.
  rewrite Hpost in Hs. cbn [firstn app] in Hs.
  injection Hs as Hpod _ Hu Ht Hpt Hsv Hn Hf Hc.
  exists ctx, ns, pod, c.
  destruct (username ctx) as [u|]; [injection Hu as -> | discriminate].
  destruct (token ctx) as [t|]; [injection Ht as -> | discriminate].
  destruct (port ctx) as [z|]; [injection Hpt as -> | discriminate].
  destruct (server ctx) as [a|]; [injection Hsv as -> | discriminate].
  destruct (kubernetes_config_file ctx) as [f|];
    [injection Hf as -> | discriminate].
  repeat split; assumption.
Defined.

(** ** The host keys of a run *)




(** With names that no cluster gives, two pods with different names,
    ["b_c"] with a container ["a"] and ["c"] with a container ["a_b"], would
    get one key. *)
Lemma host_keys_collide :
  map pod_name
      (listed_pods (events_of (_populate Scenario.underscored
                                         Scenario.one_context) fresh))
  = ["b_c"; "c"]%string
  /\ hosts_added (events_of (_populate Scenario.underscored
                                       Scenario.one_context) fresh)
     = ["a_b_c"; "a_b_c"]%string
  /\ kubernetes_name "b_c" = false.
Proof. repeat split. Qed.

(** ** Failures *)

Section Stops.

Variable K : Kubernetes.
Local Open Scope list_scope.

(** What ends the loop over the namespaces of a context: a pod listing that
    raises, or a pod listing without a handle. *)
Lemma loop_calls_raise pl ctx a nss d e :
  loop_calls (namespace_calls K pl ctx a) nss = (d, Some e) ->
  (exists ns, In (list_pod ns (inl e)) d)
  \/ e = no_attribute "InventoryModule" "api".
Proof.
  revert d. induction nss as [|ns nss IH]; intros d H; cbn [loop_calls] in H.
  - discriminate.
  - destruct (namespace_calls K pl ctx a ns) as [d0 [e0|]] eqn:En.
    + injection H as <- <-. unfold namespace_calls in En.
      destruct a as [c|].
      * destruct (list_namespaced_pod K c ns) as [x|pods]; [|discriminate].
        injection En as <- <-. left. exists ns. now left.
      * injection En as _ <-. now right.
    + destruct (loop_calls (namespace_calls K pl ctx a) nss) as [d' r].
      injection H as <- ->.
      destruct (IH d' eq_refl) as [(ns' & Hin)|He]; [left | now right].
      exists ns'. apply in_or_app. now right.
Qed.

(** What ends the loop over the contexts: the same, or a context without
    a [namespaces] key. *)
Lemma contexts_calls_raise pl cs a d e a' :
  contexts_calls K pl a cs = (d, Some e, a') ->
  (exists ns, In (list_pod ns (inl e)) d)
  \/ e = no_attribute "InventoryModule" "api"
  \/ exists ctx, In ctx cs /\ namespaces ctx = None.
Proof.
  revert a d. induction cs as [|ctx cs IH]; intros a d H;
    cbn [contexts_calls] in H.
  - discriminate.
  - destruct (context_calls K pl a ctx) as [[d0 [e0|]] a0] eqn:Ec.
    + injection H as <- <- <-. unfold context_calls in Ec.
      destruct (connect_calls K a ctx) as [dc ac].
      destruct (namespaces ctx) as [nss|] eqn:En.
      * destruct (loop_calls (namespace_calls K pl ctx ac) nss) as [dl r]
          eqn:El.
        injection Ec as <- -> <-.
        destruct (loop_calls_raise _ _ _ _ _ _ El) as [(ns & Hin)|He];
          [left | now right; left].
        exists ns. apply in_or_app. now right.
      * right. right. exists ctx. split; [now left | exact En].
    + destruct (contexts_calls K pl a0 cs) as [[d' r] a''] eqn:El.
      injection H as <- -> <-.
      destruct (IH _ _ El) as [(ns & Hin)|[He|(c & Hc & Hn)]].
      * left. exists ns. apply in_or_app. now right.
      * now right; left.
      * right. right. exists c. split; [now right | exact Hn].
Qed.

(** A run that meets none of the three lists the pods of every configured
    namespace. *)
Lemma run_calls_complete doc a :
  (forall ctx, In ctx (doc_contexts doc) -> namespaces ctx <> None) ->
  (forall ns x, ~ In (list_pod ns (inl x)) (run_calls K doc a)) ->
  ~ In (display_error "'InventoryModule' object has no attribute 'api'")
       (run_calls K doc a) ->
  pod_listing_namespaces (run_calls K doc a)
  = flat_map context_namespaces (doc_contexts doc).
Proof.
  unfold run_calls. destruct doc as [[pl [cs|]]|ty];
    cbn [contexts doc_contexts]; try reflexivity.
  intros Hn Hl Ha.
  set (p := doc_plugin (YMapping (mkConfig pl (Some cs)))) in *.
  destruct (contexts_loop_order K p cs a) as (rest & Ho & Hr).
  destruct (contexts_calls K p a cs) as [[d [e|]] a'] eqn:Ec;
    cbn [fst snd] in *.
  - exfalso.
    destruct (contexts_calls_raise _ _ _ _ _ _ Ec)
      as [(ns & Hin)|[->|(c & Hc & Hnone)]].
    + apply (Hl ns e). apply in_or_app. now left.
    + apply Ha. apply in_or_app. right. now left.
    + exact (Hn c Hc Hnone).
  - rewrite (Hr eq_refl), app_nil_r in Ho. symmetry. exact Ho.
Qed.

Lemma contexts_calls_connect pl a ctx cs :
  exists rest,
    fst (fst (contexts_calls K pl a (ctx :: cs)))
    = fst (connect_calls K a ctx) ++ rest.
Proof.
  cbn [contexts_calls]. unfold context_calls.
  destruct (connect_calls K a ctx) as [d a'].
  destruct (namespaces ctx) as [nss|].
  - destruct (loop_calls (namespace_calls K pl ctx a') nss) as [d' [e|]].
    + now exists d'.
    + destruct (contexts_calls K pl a' cs) as [[d'' r] a''].
      exists (d' ++ d''). cbn [fst]. now rewrite app_assoc.
  - exists []. cbn [fst]. now rewrite app_nil_r.
Qed.

(** Such a run makes the connection attempt of every context, after the
    calls of the run over the contexts before it. *)
Lemma every_context_is_tried pl cs1 ctx cs2 (s : self K) :
  (forall c, In c (cs1 ++ ctx :: cs2) -> namespaces c <> None) ->
  (forall ns x,
     ~ In (list_pod ns (inl x))
          (events_of (_populate K (YMapping (mkConfig pl
                        (Some (cs1 ++ ctx :: cs2))))) s)) ->
  ~ In (display_error "'InventoryModule' object has no attribute 'api'")
       (events_of (_populate K (YMapping (mkConfig pl
                     (Some (cs1 ++ ctx :: cs2))))) s) ->
  exists rest,
    events_of (_populate K (YMapping (mkConfig pl
                 (Some (cs1 ++ ctx :: cs2))))) s
    = events_of (_populate K (YMapping (mkConfig pl (Some cs1)))) s
      ++ events_of (_connect K ctx)
                   (snd (_populate K (YMapping (mkConfig pl (Some cs1))) s))
      ++ rest.
Proof.
  intros Hn Hl Ha.
  rewrite (populate_calls K (YMapping (mkConfig pl
             (Some (cs1 ++ ctx :: cs2)))) s) in *.
  unfold run_calls in *. cbn [contexts] in *.
  set (p := doc_plugin (YMapping (mkConfig pl (Some cs1)))).
  change (doc_plugin (YMapping {| plugin_name := pl;
                                  contexts := Some (cs1 ++ ctx :: cs2) |}))
    with p in *.
  rewrite contexts_calls_app in *.
  destruct (contexts_calls K p (api s) cs1) as [[d1 [e|]] a1] eqn:E1.
  - exfalso.
    destruct (contexts_calls_raise _ _ _ _ _ _ E1)
      as [(ns & Hin)|[->|(c & Hc & Hnone)]].
    + apply (Hl ns e). apply in_or_app. now left.
    + apply Ha. apply in_or_app. right. now left.
    + apply (Hn c); [|exact Hnone]. apply in_or_app. now left.
  - destruct (populate_state K pl cs1 s d1 a1 E1) as (Ev & A1 & _).
    destruct (connect_state K ctx
                (snd (_populate K (YMapping (mkConfig pl (Some cs1))) s)))
      as (Ec & _).
    rewrite Ev, Ec, A1.
    destruct (contexts_calls_connect p a1 ctx cs2) as (rest & Hr).
    destruct (contexts_calls K p a1 (ctx :: cs2)) as [[d' [e|]] a'];
      cbn [fst] in Hr; rewrite Hr.
    + exists (rest ++ [display_error (message e)]).
      now rewrite <- !app_assoc.
    + now exists rest.
Qed.

(** Without a handle after the connection attempt of the first context,
    the first pod listing ends the run. *)
Lemma no_handle_stops pl ctx cs ns nss (s : self K) :
  namespaces ctx = Some (ns :: nss) ->
  api (snd (_connect K ctx s)) = None ->
  events_of (_populate K (YMapping (mkConfig pl (Some (ctx :: cs))))) s
  = events_of (_connect K ctx) s
    ++ [display_error "'InventoryModule' object has no attribute 'api'"].
Proof.
  intros Hn Ha. rewrite populate_calls.
  destruct (connect_state K ctx s) as (Ec & A & _).
  rewrite Ec. rewrite A in Ha.
  unfold run_calls. cbn [contexts contexts_calls]. unfold context_calls.
  destruct (connect_calls K (api s) ctx) as [d a']. cbn [fst snd] in *.
  rewrite Hn, Ha. cbn [loop_calls namespace_calls]. now rewrite app_nil_r.
Qed.

End Stops.

(** C1, as amended. Every failure within a context is reported and
    swallowed: [_populate] always returns normally, and the report of a
    failed call on the cluster is the very next call. Nothing is rolled back:
    the calls made so far stay, and a run over more contexts starts with the
    calls of the run over the first ones. [_connect] and
    [_kube_service_group] never raise. A failed pod listing ends the run:
    its report is the last call; so does a first connection that leaves the
    object without a handle: the first pod listing reports the missing
    attribute, and nothing follows. A run in which no pod listing fails, no
    missing handle is reported and every context has a [namespaces] key goes
    through every configured context and namespace, whatever connections or
    endpoint listings failed on the way: the pods of all configured
    namespaces are listed, in order, and every context has its connection
    attempt right after the calls of the run over the contexts before
    it. *)
Theorem failures_reported_and_kept (K : Kubernetes) (doc : yaml_doc)
        (s : self K) :
  let events := events_of (_populate K doc) s in
  fst (_populate K doc s) = Ok tt
  /\ trace (snd (_populate K doc s)) = (trace s ++ events)%list
  /\ (forall pre e post x,
        events = (pre ++ e :: post)%list -> failure_of e = Some x ->
        exists rest, post = display_error (message x) :: rest)
  /\ (forall pre namespace x post,
        events = (pre ++ list_pod namespace (inl x) :: post)%list ->
        post = [display_error (message x)])
  /\ (forall pl cs1 cs2,
        doc = YMapping (mkConfig pl (Some (cs1 ++ cs2)%list)) ->
        exists rest,
          events
          = (events_of (_populate K (YMapping (mkConfig pl (Some cs1)))) s
             ++ rest)%list)
  /\ (forall context (s' : self K), fst (_connect K context s') = Ok tt)
  /\ (forall namespace (s' : self K),
        fst (_kube_service_group K namespace s') = Ok tt)
  /\ (forall pl context cs namespace nss,
        doc = YMapping (mkConfig pl (Some (context :: cs))) ->
        namespaces context = Some (namespace :: nss) ->
        api (snd (_connect K context s)) = None ->
        events
        = (events_of (_connect K context) s
           ++ [display_error
                 "'InventoryModule' object has no attribute 'api'"])%list)
  /\ ((forall context, In context (doc_contexts doc) ->
                       namespaces context <> None) ->
      (forall namespace x, ~ In (list_pod namespace (inl x)) events) ->
      ~ In (display_error "'InventoryModule' object has no attribute 'api'")
           events ->
      pod_listing_namespaces events
      = flat_map context_namespaces (doc_contexts doc)
      /\ (forall pl cs1 context cs2,
            doc = YMapping (mkConfig pl (Some (cs1 ++ context :: cs2)%list)) ->
            let earlier := YMapping (mkConfig pl (Some cs1)) in
            exists rest,
              events
              = (events_of (_populate K earlier) s
                 ++ events_of (_connect K context)
                              (snd (_populate K earlier s))
                 ++ rest)%list)).
Proof.
  intros events.
  destruct (events_of_populate K doc s) as (bs & fin & E & T & _).
  split; [exact E|]. split; [exact T|].
  split; [|split; [|split; [|split; [|split; [|split]]]]].
  - intros pre e post x H Hx.
    assert (L : locally reported_next events).
    { apply populate_locally.
      - apply reported_next_extensible.
      - apply block_reported.
      - apply closing_reported. }
    exact (L pre e post H x Hx).
  - intros pre ns x post H.
    exact (populate_stops_at_failed_listing K doc s pre ns x post H).
  - intros pl cs1 cs2 ->. apply populate_prefix.
  - intros ctx s'.
    destruct (_connect_block K ctx "kubernetes"%string [] s')
      as (s1 & b & -> & _).
    reflexivity.
  - intros ns s'. apply _kube_service_group_returns.
  - intros pl ctx cs ns nss -> Hn Ha. unfold events.
    now apply no_handle_stops with (ns := ns) (nss := nss).
  - intros Hn Hl Ha. split.
    + unfold events in *. rewrite populate_calls in *.
      now apply run_calls_complete.
    + intros pl cs1 ctx cs2 Hdoc earlier. unfold events in *. subst doc.
      now apply every_context_is_tried.
Qed.

(** The endpoints of ["ns1"] are refused under the first of two contexts:
    the failure is reported next, and the run goes on to the second
    context, which connects and whose namespace ["ns2"] is listed. And when
    the second of two contexts cannot connect, after a first one that
    could, its namespace is listed all the same. *)
Lemma failures_reported_and_kept_witness :
  fst (_populate endpoints_refused Scenario.two_contexts fresh) = Ok tt
  /\ (exists rest,
        skipn 19 run_refused
        = display_error "(403) Reason: Forbidden" :: rest)
  /\ pod_listing_namespaces run_refused = ["ns1"; "ns2"]%string
  /\ (exists rest,
        run_refused
        = (events_of (_populate endpoints_refused
                        (YMapping (mkConfig (Some "kubectl"%string)
                                            (Some [Scenario.local_ctx]))))
                     fresh
           ++ events_of (_connect endpoints_refused Scenario.file_ctx)
                (snd (_populate endpoints_refused
                        (YMapping (mkConfig (Some "kubectl"%string)
                                            (Some [Scenario.local_ctx])))
                        fresh))
           ++ rest)%list)
  /\ pod_listing_namespaces
       (events_of (_populate Scenario.first_fails
                     (YMapping (mkConfig None (Some [Scenario.file_ctx;
                                                     Scenario.local_ctx]))))
                  fresh)
     = ["ns2"; "ns1"]%string.
Proof.
  destruct (failures_reported_and_kept endpoints_refused
                                       Scenario.two_contexts fresh)
    as (E & _ & R & _ & _ & _ & _ & _ & C).
  destruct (failures_reported_and_kept
              Scenario.first_fails
              (YMapping (mkConfig None (Some [Scenario.file_ctx;
                                              Scenario.local_ctx])))
              fresh)
    as (_ & _ & _ & _ & _ & _ & _ & _ & C').
  destruct C as [L T].
  { intros context [<-|[<-|[]]]; discriminate. }
  { intros namespace x Hin. vm_compute in Hin.
    repeat (destruct Hin as [Hin|Hin]; [discriminate Hin|]).
    exact Hin. }
  { intros Hin. vm_compute in Hin.
    repeat (destruct Hin as [Hin|Hin]; [discriminate Hin|]).
    exact Hin. }
  destruct C' as [L' _].
  { intros context [<-|[<-|[]]]; discriminate. }
  { intros namespace x Hin. vm_compute in Hin.
    repeat (destruct Hin as [Hin|Hin]; [discriminate Hin|]).
    exact Hin. }
  { intros Hin. vm_compute in Hin.
    repeat (destruct Hin as [Hin|Hin]; [discriminate Hin|]).
    exact Hin. }
  split; [exact E|]. split; [|split; [exact L|split; [|exact L']]].
  - apply (R (firstn 18 run_refused)
             (list_endpoints "ns1"
                (inl (mkExn ApiException "(403) Reason: Forbidden")))
             (skipn 19 run_refused)
             (mkExn ApiException "(403) Reason: Forbidden"));
      reflexivity.
  - apply (T (Some "kubectl"%string) [Scenario.local_ctx]
             Scenario.file_ctx []).
    reflexivity.
Defined.

(** The first of two contexts fails, the second alone would yield a host,
    and the run ends without trying it: when the first cannot connect, the
    failure is reported and the pod listing finds no handle; when the first
    connects and its pod listing fails, the failure is reported. *)
Lemma second_context_not_populated :
  events_of (_populate Scenario.first_fails Scenario.two_contexts) fresh
  = [ load_config LocalDefault
        (Some (mkExn ConfigException
                     "Invalid kube-config file. No configuration found."));
      display_error "Invalid kube-config file. No configuration found.";
      display_error "'InventoryModule' object has no attribute 'api'" ]
  /\ hosts_added
       (events_of (_populate Scenario.first_fails
                             Scenario.second_context_only) fresh)
     = ["app_web-1"%string]
  /\ events_of (_populate Scenario.first_listing_fails Scenario.two_contexts)
               fresh
     = [ load_config LocalDefault None;
         list_pod "ns1" (inl (mkExn ApiException "(403) Reason: Forbidden"));
         display_error "(403) Reason: Forbidden" ]
  /\ hosts_added
       (events_of (_populate Scenario.first_listing_fails
                             Scenario.second_context_only) fresh)
     = ["app_web-1"%string].
Proof. repeat split. Qed.
